(** * The playback controller of the music player (public/js/player.js)

    A shallow embedding of the [MusicPlayer] class: its fields, the part of the
    audio element and of the page it reads and writes, its methods, and the
    event loop that delivers user commands, media events and the results of
    pending [audio.play()] requests. *)

From Stdlib Require Import ZArith QArith Qround Qabs Qpower List String Ascii.
From Stdlib Require Import Bool Lia DecimalString Lqa.
Import ListNotations.

Open Scope Z_scope.

(** ** JavaScript numbers

    A number is [NaN] or a finite value.  Finite doubles are modelled by the
    rational they denote, and the controller's arithmetic on volumes,
    positions and the shuffle draw is exact.  [formatTime] is the exception:
    the whole minutes it prints depend on how the quotient is rounded, and it
    accepts the infinities; its operations are those of the section on
    doubles below.  The controller divides only by the constants 60 and 100,
    so division and remainder take a positive constant divisor. *)
Module JS.

Inductive number : Type :=
| NaN
| Num (q : Q).

Definition Qltb (x y : Q) : bool := negb (Qle_bool y x).

(** [a > b], [a < b], [a === b]: every comparison with [NaN] is false. *)
Definition gt (a b : number) : bool :=
  match a, b with
  | Num x, Num y => Qltb y x
  | _, _ => false
  end.

Definition lt (a b : number) : bool := gt b a.

Definition strict_eq (a b : number) : bool :=
  match a, b with
  | Num x, Num y => Qeq_bool x y
  | _, _ => false
  end.

Definition isNaN (a : number) : bool :=
  match a with NaN => true | Num _ => false end.

(** Truthiness of a number: [0] and [NaN] are falsy. *)
Definition truthy (a : number) : bool :=
  match a with
  | NaN => false
  | Num x => negb (Qeq_bool x 0)
  end.

Definition add (a b : number) : number :=
  match a, b with
  | Num x, Num y => Num (x + y)
  | _, _ => NaN
  end.

Definition sub (a b : number) : number :=
  match a, b with
  | Num x, Num y => Num (x - y)
  | _, _ => NaN
  end.

Definition mul (a b : number) : number :=
  match a, b with
  | Num x, Num y => Num (x * y)
  | _, _ => NaN
  end.

(** [a / d] for a positive constant [d]. *)
Definition divc (a : number) (d : positive) : number :=
  match a with
  | NaN => NaN
  | Num x => Num (x / inject_Z (Zpos d))
  end.

(** Truncation toward zero, the quotient behind JavaScript's [%]. *)
Definition Qtrunc (x : Q) : Z :=
  if Qle_bool 0 x then Qfloor x else Qceiling x.

(** [a % d] for a positive constant [d]: the result has the sign of [a]. *)
Definition remc (a : number) (d : positive) : number :=
  match a with
  | NaN => NaN
  | Num x =>
      Num (x - inject_Z (Zpos d) * inject_Z (Qtrunc (x / inject_Z (Zpos d))))
  end.

(** [Math.max] and [Math.min] of two arguments. *)
Definition Math_max (a b : number) : number :=
  match a, b with
  | Num x, Num y => if Qle_bool x y then b else a
  | _, _ => NaN
  end.

Definition Math_min (a b : number) : number :=
  match a, b with
  | Num x, Num y => if Qle_bool x y then a else b
  | _, _ => NaN
  end.

(** *** Doubles *)

(** A number or one of the two infinities. *)
Inductive extended : Type :=
| Finite (a : number)
| PosInfinity
| NegInfinity.

Coercion Finite : number >-> extended.

(** [!!a] and [isNaN(a)]: the infinities are truthy and are not [NaN]. *)
Definition ToBoolean (a : extended) : bool :=
  match a with
  | Finite a => truthy a
  | _ => true
  end.

Definition global_isNaN (a : extended) : bool :=
  match a with
  | Finite a => isNaN a
  | _ => false
  end.

(** The binary exponent of a non-zero [x]: 2^(binade x) <= |x| <
    2^(binade x + 1). *)
Definition binade (x : Q) : Z :=
  let g := Z.log2 (Z.abs (Qnum x)) - Z.log2 (Zpos (Qden x)) in
  if Qle_bool (2 ^ g) (Qabs x) then g else g - 1.

(** The nearest whole number, the even one of two equally near. *)
Definition round_half_even (x : Q) : Z :=
  let f := Qfloor x in
  match Qcompare (x - inject_Z f) (1 # 2) with
  | Lt => f
  | Gt => f + 1
  | Eq => if Z.even f then f else f + 1
  end.

(** Doubles near [x] are the multiples of 2^(ulp_exponent x): 53 significant
    bits, and a fixed step of 2^-1074 in the subnormal range. *)
Definition ulp_exponent (x : Q) : Z := Z.max (binade x - 52) (-1074).

(** The double nearest to [x], ties to even: what an arithmetic operation
    with the exact result [x] returns.  A result that rounds to 2^1024 or
    beyond is infinite. *)
Definition round_double (x : Q) : extended :=
  let e := ulp_exponent x in
  let r := (inject_Z (round_half_even (x / 2 ^ e)) * 2 ^ e)%Q in
  if Qle_bool (2 ^ 1024) (Qabs r) then
    if Qle_bool 0 x then PosInfinity else NegInfinity
  else Finite (Num r).

(** The rational [q] is the value of a double. *)
Definition is_double (q : Q) : bool :=
  match round_double q with
  | Finite (Num r) => Qeq_bool r q
  | _ => false
  end.

(** [a / d] on doubles, for a positive constant [d]. *)
Definition div_double (a : extended) (d : positive) : extended :=
  match a with
  | Finite NaN => NaN
  | Finite (Num x) => round_double (x / inject_Z (Zpos d))
  | PosInfinity => PosInfinity
  | NegInfinity => NegInfinity
  end.

(** [a % d] on doubles, for a positive constant [d]: the remainder of a
    finite number is a double, so nothing is rounded; the remainder of an
    infinity is [NaN]. *)
Definition rem_double (a : extended) (d : positive) : extended :=
  match a with
  | Finite a => remc a d
  | _ => NaN
  end.

(** The values [Math.floor] returns: [NaN], an infinity or a whole number. *)
Inductive integral : Type :=
| INaN
| IPosInfinity
| INegInfinity
| Int (z : Z).

Definition Math_floor (a : extended) : integral :=
  match a with
  | Finite NaN => INaN
  | Finite (Num x) => Int (Qfloor x)
  | PosInfinity => IPosInfinity
  | NegInfinity => INegInfinity
  end.

(** The decimal digits of a whole number, with a minus sign when negative. *)
Definition decimal (z : Z) : string := NilZero.string_of_int (Z.to_int z).

(** Whether the decimal numeral [v] denotes the double [z]. *)
Definition reads_as (v z : Z) : bool :=
  match round_double (inject_Z v) with
  | Finite (Num r) => Qeq_bool r (inject_Z z)
  | _ => false
  end.

(** The whole number with the fewest significant digits that denotes the
    double [z]: the multiple of the largest power of ten, up to 10^t, that
    reads as [z], the nearer one of two.  [Number::toString] prints these
    digits. *)
Fixpoint shortest (t : nat) (z : Z) : Z :=
  match t with
  | O => z
  | S t' =>
      let p := 10 ^ Z.of_nat t in
      let lo := z / p * p in
      let hi := lo + p in
      let lo_first :=
        (z - lo <? hi - z) || ((z - lo =? hi - z) && Z.even (z / p)) in
      let near := if lo_first then lo else hi in
      let far := if lo_first then hi else lo in
      if (0 <? near) && reads_as near z then near
      else if (0 <? far) && reads_as far z then far
      else shortest t' z
  end.

Fixpoint strip_zeros (fuel : nat) (z : Z) : Z :=
  match fuel with
  | O => z
  | S fuel' =>
      if (0 <? z) && (z mod 10 =? 0) then strip_zeros fuel' (z / 10) else z
  end.

(** The form with an exponent: [d.ddde+n]. *)
Definition exponential (v : Z) : string :=
  let n := String.length (decimal v) in
  let s := decimal (strip_zeros n v) in
  let e := decimal (Z.of_nat n - 1) in
  match s with
  | String d EmptyString => String d ("e+" ++ e)
  | String d ds => String d ("." ++ ds ++ "e+" ++ e)
  | EmptyString => s
  end.

(** [Number::toString] on a whole number [a >= 0]: the shortest digits that
    denote it, followed by zeros, and the form with an exponent from 10^21
    on. *)
Definition whole_toString (a : Z) : string :=
  let v := shortest (Z.to_nat (Z.log2 a / 3 + 1)) a in
  if v <? 10 ^ 21 then decimal v else exponential v.

(** [Number.prototype.toString] and the conversion in a template literal, on
    the values [Math.floor] returns. *)
Definition toString (n : integral) : string :=
  match n with
  | INaN => "NaN"
  | IPosInfinity => "Infinity"
  | INegInfinity => "-Infinity"
  | Int z => if z <? 0 then "-" ++ whole_toString (- z) else whole_toString z
  end.

(** The first [n] characters of [fill] repeated; [fuel] bounds the number of
    repetitions. *)
Fixpoint fill_prefix (fuel : nat) (n : nat) (fill : string) : string :=
  match fuel with
  | O => ""
  | S fuel' =>
      if (n <=? String.length fill)%nat then substring 0 n fill
      else fill ++ fill_prefix fuel' (n - String.length fill) fill
  end.

(** [String.prototype.padStart]. *)
Definition padStart (s : string) (targetLength : nat) (fillString : string)
  : string :=
  if (targetLength <=? String.length s)%nat then s
  else match fillString with
       | EmptyString => s
       | _ =>
           let need := (targetLength - String.length s)%nat in
           fill_prefix need need fillString ++ s
       end.

End JS.

Import JS.

(** ** Utilities *)

(** [formatTime(seconds)] *)
Definition formatTime (seconds : extended) : string :=
  if negb (ToBoolean seconds) || global_isNaN seconds then "0:00"
  else
    let mins := Math_floor (div_double seconds 60) in
    let secs := Math_floor (rem_double seconds 60) in
    toString mins ++ ":" ++ padStart (toString secs) 2 "0".

(** ** Data model *)

(** A track descriptor as the library API returns it. *)
Module Track.
Record t : Type := mk {
  id : string;
  title : string;
  artist : string;
  url : string;
  duration : number
}.
End Track.

(** The page's [<audio>] element, reduced to the attributes the controller
    reads and writes.  Attributes are plain fields: the element's own
    validation of assigned values is outside the model.  The promise returned
    by [audio.play()] is kept in the controller state below. *)
Module Audio.
Record t : Type := mk {
  src : string;
  volume : number;
  currentTime : number;
  duration : number
}.

Definition set_src (v : string) (a : t) : t :=
  mk v (volume a) (currentTime a) (duration a).
Definition set_volume (v : number) (a : t) : t :=
  mk (src a) v (currentTime a) (duration a).
Definition set_currentTime (v : number) (a : t) : t :=
  mk (src a) (volume a) v (duration a).
Definition set_duration (v : number) (a : t) : t :=
  mk (src a) (volume a) (currentTime a) v.

(** [audio.load()]: the element restarts resource selection; the playback
    position returns to 0 and the duration is unknown until metadata
    arrives. *)
Definition load (a : t) : t :=
  set_duration NaN (set_currentTime (Num 0) a).
End Audio.

Inductive VolumeIcon : Type := IconMuted | IconLow | IconHigh.

(** The part of [this.elements] whose content depends on the controller
    state: the slider value, the volume icon, whether the transport controls
    are enabled, the play/pause button title and the now-playing texts. *)
Module Elements.
Record t : Type := mk {
  volumeSlider : number;
  volumeIcon : VolumeIcon;
  controlsEnabled : bool;
  playPauseTitle : string;
  currentTrackTitle : string;
  currentTrackArtist : string
}.

Definition set_volumeSlider (v : number) (e : t) : t :=
  mk v (volumeIcon e) (controlsEnabled e) (playPauseTitle e)
     (currentTrackTitle e) (currentTrackArtist e).
Definition set_volumeIcon (v : VolumeIcon) (e : t) : t :=
  mk (volumeSlider e) v (controlsEnabled e) (playPauseTitle e)
     (currentTrackTitle e) (currentTrackArtist e).
Definition set_controlsEnabled (v : bool) (e : t) : t :=
  mk (volumeSlider e) (volumeIcon e) v (playPauseTitle e)
     (currentTrackTitle e) (currentTrackArtist e).
Definition set_playPauseTitle (v : string) (e : t) : t :=
  mk (volumeSlider e) (volumeIcon e) (controlsEnabled e) v
     (currentTrackTitle e) (currentTrackArtist e).
Definition set_nowPlaying (ti ar : string) (e : t) : t :=
  mk (volumeSlider e) (volumeIcon e) (controlsEnabled e) (playPauseTitle e)
     ti ar.
End Elements.

Inductive RepeatMode : Type := RepeatOff | RepeatAll | RepeatOne.

(** What the controller sends outward: console errors, toasts
    ([showToast(message, type)]) and [trackChanged] events with their
    [detail.track]. *)
Inductive Effect : Type :=
| ConsoleError (msg : string)
| Toast (message type : string)
| TrackChanged (track : option Track.t).

(** Who waits for a pending [audio.play()] promise: [play()] alone, when its
    caller does not await it ([togglePlayPause], [handleTrackEnd]), or
    [play()] awaited by [loadTrack]. *)
Inductive Awaiter : Type :=
| PlayOnly
| PlayInLoadTrack.

(** The result of an [audio.play()] promise. *)
Inductive Outcome : Type :=
| Fulfilled
| Rejected.

(** The controller: the fields of [MusicPlayer], then the pending
    [audio.play()] promises (numbered in the order of the requests) and the
    effects emitted so far, oldest first. *)
Record Player : Type := mkPlayer {
  currentTrack : option Track.t;
  queue : list Track.t;
  currentIndex : Z;
  isPlaying : bool;
  isShuffled : bool;
  repeatMode : RepeatMode;
  volume : number;
  audio : Audio.t;
  elements : Elements.t;
  pending : list (nat * Awaiter);
  nextRequest : nat;
  output : list Effect
}.

Definition set_currentTrack (v : option Track.t) (s : Player) : Player :=
  mkPlayer v (queue s) (currentIndex s) (isPlaying s) (isShuffled s)
    (repeatMode s) (volume s) (audio s) (elements s) (pending s)
    (nextRequest s) (output s).
Definition set_queue (v : list Track.t) (s : Player) : Player :=
  mkPlayer (currentTrack s) v (currentIndex s) (isPlaying s) (isShuffled s)
    (repeatMode s) (volume s) (audio s) (elements s) (pending s)
    (nextRequest s) (output s).
Definition set_currentIndex (v : Z) (s : Player) : Player :=
  mkPlayer (currentTrack s) (queue s) v (isPlaying s) (isShuffled s)
    (repeatMode s) (volume s) (audio s) (elements s) (pending s)
    (nextRequest s) (output s).
Definition set_isPlaying (v : bool) (s : Player) : Player :=
  mkPlayer (currentTrack s) (queue s) (currentIndex s) v (isShuffled s)
    (repeatMode s) (volume s) (audio s) (elements s) (pending s)
    (nextRequest s) (output s).
Definition set_isShuffled (v : bool) (s : Player) : Player :=
  mkPlayer (currentTrack s) (queue s) (currentIndex s) (isPlaying s) v
    (repeatMode s) (volume s) (audio s) (elements s) (pending s)
    (nextRequest s) (output s).
Definition set_repeatMode (v : RepeatMode) (s : Player) : Player :=
  mkPlayer (currentTrack s) (queue s) (currentIndex s) (isPlaying s)
    (isShuffled s) v (volume s) (audio s) (elements s) (pending s)
    (nextRequest s) (output s).
Definition set_volume (v : number) (s : Player) : Player :=
  mkPlayer (currentTrack s) (queue s) (currentIndex s) (isPlaying s)
    (isShuffled s) (repeatMode s) v (audio s) (elements s) (pending s)
    (nextRequest s) (output s).
Definition set_audio (v : Audio.t) (s : Player) : Player :=
  mkPlayer (currentTrack s) (queue s) (currentIndex s) (isPlaying s)
    (isShuffled s) (repeatMode s) (volume s) v (elements s) (pending s)
    (nextRequest s) (output s).
Definition set_elements (v : Elements.t) (s : Player) : Player :=
  mkPlayer (currentTrack s) (queue s) (currentIndex s) (isPlaying s)
    (isShuffled s) (repeatMode s) (volume s) (audio s) v (pending s)
    (nextRequest s) (output s).
Definition set_pending (v : list (nat * Awaiter)) (s : Player) : Player :=
  mkPlayer (currentTrack s) (queue s) (currentIndex s) (isPlaying s)
    (isShuffled s) (repeatMode s) (volume s) (audio s) (elements s) v
    (nextRequest s) (output s).
Definition set_nextRequest (v : nat) (s : Player) : Player :=
  mkPlayer (currentTrack s) (queue s) (currentIndex s) (isPlaying s)
    (isShuffled s) (repeatMode s) (volume s) (audio s) (elements s)
    (pending s) v (output s).

(** Append one effect to the output. *)
Definition emit (e : Effect) (s : Player) : Player :=
  mkPlayer (currentTrack s) (queue s) (currentIndex s) (isPlaying s)
    (isShuffled s) (repeatMode s) (volume s) (audio s) (elements s)
    (pending s) (nextRequest s) (output s ++ [e]).

Definition showToast (message type : string) (s : Player) : Player :=
  emit (Toast message type) s.

(** [this.queue.length] and [this.queue[i]] ([None] is [undefined]). *)
Definition queue_length (s : Player) : Z := Z.of_nat (List.length (queue s)).

Definition queue_at (q : list Track.t) (i : Z) : option Track.t :=
  if i <? 0 then None else nth_error q (Z.to_nat i).

(** ** Methods of [MusicPlayer]

    A method is a function on the controller state.  An [async] method is
    split at its [await]: the part that runs when it is called, and the part
    that runs when the awaited promise settles. *)

Definition updateControlsState (enabled : bool) (s : Player) : Player :=
  set_elements (Elements.set_controlsEnabled enabled (elements s)) s.

Definition updateNowPlaying (s : Player) : Player :=
  match currentTrack s with
  | Some t =>
      set_elements
        (Elements.set_nowPlaying (Track.title t) (Track.artist t) (elements s)) s
  | None =>
      set_elements
        (Elements.set_nowPlaying "No track playing" "Select a track to begin"
           (elements s)) s
  end.

Definition updatePlayPauseButton (s : Player) : Player :=
  set_elements
    (Elements.set_playPauseTitle (if isPlaying s then "Pause" else "Play")
       (elements s)) s.

Definition updateVolumeIcon (s : Player) : Player :=
  let volume := Audio.volume (audio s) in
  let icon :=
    if strict_eq volume (Num 0) then IconMuted
    else if lt volume (Num (1 # 2)) then IconLow
    else IconHigh in
  set_elements (Elements.set_volumeIcon icon (elements s)) s.

(** [initializePlayer()] *)
Definition initializePlayer (s : Player) : Player :=
  let s := set_audio (Audio.set_volume (volume s) (audio s)) s in
  let s :=
    set_elements
      (Elements.set_volumeSlider (mul (volume s) (Num 100)) (elements s)) s in
  updateControlsState false s.

(** [new MusicPlayer()] on a page with the audio element [a] and the
    controls [e]. *)
Definition constructor (a : Audio.t) (e : Elements.t) : Player :=
  initializePlayer
    (mkPlayer None [] (-1) false false RepeatOff (Num (8 # 10)) a e [] O []).

(** [play()] up to its [await]: [audio.play()] is requested and its promise
    is pending; [k] tells who waits for it. *)
Definition play_request (k : Awaiter) (s : Player) : Player :=
  set_nextRequest (S (nextRequest s))
    (set_pending (pending s ++ [(nextRequest s, k)]) s).

(** [play()] from its [await] on, once the promise has settled. *)
Definition play_resume (o : Outcome) (s : Player) : Player :=
  match o with
  | Fulfilled => updatePlayPauseButton (set_isPlaying true s)
  | Rejected =>
      showToast "Error playing audio" "error"
        (emit (ConsoleError "Error playing audio:") s)
  end.

(** [play()] called without [await]. *)
Definition play (s : Player) : Player := play_request PlayOnly s.

(** [pause()] *)
Definition pause (s : Player) : Player :=
  updatePlayPauseButton (set_isPlaying false s).

(** [togglePlayPause()] *)
Definition togglePlayPause (s : Player) : Player :=
  if isPlaying s then pause s else play s.

(** [loadTrack(track, queue, startIndex)] up to [await this.play()];
    [queue0 = None] is the omitted (or [null]) queue. *)
Definition loadTrack (track : Track.t) (queue0 : option (list Track.t))
    (startIndex : Z) (s : Player) : Player :=
  let s :=
    match queue0 with
    | Some q => set_currentIndex startIndex (set_queue q s)
    | None => set_currentIndex 0 (set_queue [track] s)
    end in
  let s := set_currentTrack (Some track) s in
  let s :=
    set_audio
      (Audio.load
         (Audio.set_src ("http://localhost:3000" ++ Track.url track) (audio s)))
      s in
  let s := updateNowPlaying s in
  let s := updateControlsState true s in
  play_request PlayInLoadTrack s.

(** [loadTrack] after [await this.play()]: [play()] never rejects, so the
    event is dispatched whatever the outcome was. *)
Definition loadTrack_resume (s : Player) : Player :=
  emit (TrackChanged (currentTrack s)) s.

(** [loadTrack(undefined, queue, startIndex)], which [playNext] and
    [playPrevious] make when [queue[currentIndex]] is out of range: reading
    [track.url] throws, and the [catch] reports it. *)
Definition loadTrack_undefined (queue0 : list Track.t) (startIndex : Z)
    (s : Player) : Player :=
  let s := set_currentIndex startIndex (set_queue queue0 s) in
  let s := set_currentTrack None s in
  showToast "Error loading track" "error"
    (emit (ConsoleError "Error loading track:") s).

(** [loadTrack(this.queue[this.currentIndex], this.queue, this.currentIndex)] *)
Definition loadCurrent (s : Player) : Player :=
  match queue_at (queue s) (currentIndex s) with
  | Some track => loadTrack track (Some (queue s)) (currentIndex s) s
  | None => loadTrack_undefined (queue s) (currentIndex s) s
  end.

(** [playNext()]; [rnd] is what [Math.random()] returns if it is called.
    The product with the queue length is taken exactly; the code rounds it
    to a double before [Math.floor], which keeps the index inside the queue
    but can move it by one when the product is within rounding distance of a
    whole number. *)
Definition playNext (rnd : Q) (s : Player) : Player :=
  if queue_length s =? 0 then s
  else
    let s :=
      if isShuffled s then
        set_currentIndex (Qfloor (rnd * inject_Z (queue_length s))) s
      else
        set_currentIndex (Z.rem (currentIndex s + 1) (queue_length s)) s in
    loadCurrent s.

(** [playPrevious()] *)
Definition playPrevious (s : Player) : Player :=
  if queue_length s =? 0 then s
  else if gt (Audio.currentTime (audio s)) (Num 3) then
    set_audio (Audio.set_currentTime (Num 0) (audio s)) s
  else
    let s :=
      set_currentIndex
        (Z.rem (currentIndex s - 1 + queue_length s) (queue_length s)) s in
    loadCurrent s.

(** [seek(percent)] *)
Definition seek (percent : number) (s : Player) : Player :=
  if truthy (Audio.duration (audio s)) then
    set_audio
      (Audio.set_currentTime (mul percent (Audio.duration (audio s)))
         (audio s)) s
  else s.

(** [setVolume(value)] *)
Definition setVolume (value : number) (s : Player) : Player :=
  let s := set_volume (Math_max (Num 0) (Math_min (Num 1) value)) s in
  let s := set_audio (Audio.set_volume (volume s) (audio s)) s in
  updateVolumeIcon s.

(** [toggleMute()] *)
Definition toggleMute (s : Player) : Player :=
  let s :=
    if gt (Audio.volume (audio s)) (Num 0) then
      let s := set_audio (Audio.set_volume (Num 0) (audio s)) s in
      set_elements (Elements.set_volumeSlider (Num 0) (elements s)) s
    else
      let s := set_audio (Audio.set_volume (volume s) (audio s)) s in
      set_elements
        (Elements.set_volumeSlider (mul (volume s) (Num 100)) (elements s)) s in
  updateVolumeIcon s.

(** [toggleShuffle()] *)
Definition toggleShuffle (s : Player) : Player :=
  let s := set_isShuffled (negb (isShuffled s)) s in
  showToast (if isShuffled s then "Shuffle enabled" else "Shuffle disabled")
    "info" s.

Definition repeat_title (m : RepeatMode) : string :=
  match m with
  | RepeatOff => "Repeat Off"
  | RepeatAll => "Repeat All"
  | RepeatOne => "Repeat One"
  end.

(** [cycleRepeatMode()]: the successor in [['off', 'all', 'one']]. *)
Definition cycleRepeatMode (s : Player) : Player :=
  let next :=
    match repeatMode s with
    | RepeatOff => RepeatAll
    | RepeatAll => RepeatOne
    | RepeatOne => RepeatOff
    end in
  let s := set_repeatMode next s in
  showToast ("Repeat: " ++ repeat_title (repeatMode s)) "info" s.

Definition is_mode (m m' : RepeatMode) : bool :=
  match m, m' with
  | RepeatOff, RepeatOff | RepeatAll, RepeatAll | RepeatOne, RepeatOne => true
  | _, _ => false
  end.

(** [handleTrackEnd()] *)
Definition handleTrackEnd (rnd : Q) (s : Player) : Player :=
  if is_mode (repeatMode s) RepeatOne then
    play (set_audio (Audio.set_currentTime (Num 0) (audio s)) s)
  else if is_mode (repeatMode s) RepeatAll
          || (currentIndex s <? queue_length s - 1) then
    playNext rnd s
  else
    let s := pause s in
    set_audio (Audio.set_currentTime (Num 0) (audio s)) s.

(** [handleAudioError(e)] *)
Definition handleAudioError (s : Player) : Player :=
  pause
    (showToast "Error playing audio file" "error"
       (emit (ConsoleError "Audio error:") s)).

(** [handleKeyboard(e)], with [e.target.tagName] and [e.key]. *)
Definition handleKeyboard (rnd : Q) (tagName key : string) (s : Player)
  : Player :=
  if (tagName =? "INPUT")%string || (tagName =? "TEXTAREA")%string then s
  else if (key =? " ")%string then togglePlayPause s
  else if (key =? "ArrowLeft")%string then
    set_audio
      (Audio.set_currentTime
         (Math_max (Num 0) (sub (Audio.currentTime (audio s)) (Num 5)))
         (audio s)) s
  else if (key =? "ArrowRight")%string then
    set_audio
      (Audio.set_currentTime
         (Math_min (Audio.duration (audio s))
            (add (Audio.currentTime (audio s)) (Num 5)))
         (audio s)) s
  else if (key =? "ArrowUp")%string then
    let s :=
      setVolume
        (Math_min (Num 1) (add (Audio.volume (audio s)) (Num (1 # 10)))) s in
    set_elements
      (Elements.set_volumeSlider (mul (Audio.volume (audio s)) (Num 100))
         (elements s)) s
  else if (key =? "ArrowDown")%string then
    let s :=
      setVolume
        (Math_max (Num 0) (sub (Audio.volume (audio s)) (Num (1 # 10)))) s in
    set_elements
      (Elements.set_volumeSlider (mul (Audio.volume (audio s)) (Num 100))
         (elements s)) s
  else if (key =? "n")%string then playNext rnd s
  else if (key =? "p")%string then playPrevious s
  else if (key =? "s")%string then toggleShuffle s
  else if (key =? "r")%string then cycleRepeatMode s
  else if (key =? "m")%string then toggleMute s
  else s.

(** ** The event loop

    One event is handled to completion before the next.  When an
    [audio.play()] promise settles, the rest of [play()] runs and then, if
    [loadTrack] awaits it, the rest of [loadTrack]. *)
Definition take_request (id : nat) (l : list (nat * Awaiter))
  : option Awaiter :=
  option_map snd (find (fun r => Nat.eqb (fst r) id) l).

Definition drop_request (id : nat) (l : list (nat * Awaiter))
  : list (nat * Awaiter) :=
  filter (fun r => negb (Nat.eqb (fst r) id)) l.

Definition settle (id : nat) (o : Outcome) (s : Player) : Player :=
  match take_request id (pending s) with
  | None => s
  | Some k =>
      let s := set_pending (drop_request id (pending s)) s in
      let s := play_resume o s in
      match k with
      | PlayOnly => s
      | PlayInLoadTrack => loadTrack_resume s
      end
  end.

Inductive Event : Type :=
(* calls from the page: script.js playTrack and the queue view *)
| LoadTrack (track : Track.t) (queue0 : option (list Track.t)) (startIndex : Z)
(* listeners registered by attachEventListeners *)
| ClickPlayPause
| ClickPrev
| ClickNext (rnd : Q)
| ClickShuffle
| ClickRepeat
| ClickVolume
| VolumeSliderInput (value : Q)
| ProgressBarInput (value : Q)
| AudioTimeUpdate (position : Q)
| AudioLoadedMetadata (length : Q)
| AudioEnded (rnd : Q)
| AudioError
| KeyDown (rnd : Q) (tagName key : string)
(* a pending audio.play() promise settles *)
| PlaySettled (id : nat) (o : Outcome).

Definition handle (e : Event) (s : Player) : Player :=
  match e with
  | LoadTrack track queue0 startIndex => loadTrack track queue0 startIndex s
  | ClickPlayPause => togglePlayPause s
  | ClickPrev => playPrevious s
  | ClickNext rnd => playNext rnd s
  | ClickShuffle => toggleShuffle s
  | ClickRepeat => cycleRepeatMode s
  | ClickVolume => toggleMute s
  | VolumeSliderInput value => setVolume (divc (Num value) 100) s
  | ProgressBarInput value => seek (divc (Num value) 100) s
  | AudioTimeUpdate position =>
      set_audio (Audio.set_currentTime (Num position) (audio s)) s
  | AudioLoadedMetadata length =>
      set_audio (Audio.set_duration (Num length) (audio s)) s
  | AudioEnded rnd => handleTrackEnd rnd s
  | AudioError => handleAudioError s
  | KeyDown rnd tagName key => handleKeyboard rnd tagName key s
  | PlaySettled id o => settle id o s
  end.

Definition run (es : list Event) (s : Player) : Player :=
  fold_left (fun s e => handle e s) es s.

(** ** Time formatting: what the result should be *)

(** The decimal digit [d] as a character, and a value below 100 written with
    exactly two digits. *)
Definition digit (d : Z) : ascii := ascii_of_nat (48 + Z.to_nat d).

Definition two_digits (r : Z) : string :=
  String (digit (r / 10)) (String (digit (r mod 10)) EmptyString).

(** ** Sample data for the scenarios *)

Definition trackA : Track.t := Track.mk "a" "Alpha" "Ann" "/uploads/a.mp3" (Num 200).
Definition trackB : Track.t := Track.mk "b" "Beta" "Bob" "/uploads/b.mp3" (Num 180).
Definition trackC : Track.t := Track.mk "c" "Gamma" "Cy" "/uploads/c.mp3" (Num 240).
Definition trackD : Track.t := Track.mk "d" "Delta" "Dee" "/uploads/d.mp3" NaN.

(** A page whose audio element has not loaded anything yet. *)
Definition audio0 : Audio.t := Audio.mk "" (Num 1) (Num 0) NaN.
Definition elements0 : Elements.t :=
  Elements.mk (Num 100) IconHigh true "Play" "No track playing"
    "Select a track to begin".
Definition player0 : Player := constructor audio0 elements0.

(** ** The states of the controller *)

Inductive Phase : Type := Idle | LoadedPaused | LoadedPlaying.

Definition phase (s : Player) : Phase :=
  match currentTrack s with
  | None => Idle
  | Some _ => if isPlaying s then LoadedPlaying else LoadedPaused
  end.

(** The user-visible messages among the effects. *)
Definition toasts (l : list Effect) : list Effect :=
  filter (fun e => match e with Toast _ _ => true | _ => false end) l.

(** Request numbers are handed out in increasing order. *)
Definition requests_numbered (s : Player) : Prop :=
  forall r, In r (pending s) -> (fst r < nextRequest s)%nat.

(** ** Failure of a playback request *)

(** Track A is playing: it was loaded and its playback request succeeded. *)
Definition playingA : Player :=
  settle 0 Fulfilled (loadTrack trackA (Some [trackA; trackB]) 0 player0).


(** ** Results of playback requests arriving in some order *)


(** What a rejected [play()] reports. *)
Definition play_report (o : Outcome) : list Effect :=
  match o with
  | Fulfilled => []
  | Rejected =>
      [ConsoleError "Error playing audio:"; Toast "Error playing audio" "error"]
  end.


(** The event is not the result of the playback request numbered [n]. *)
Definition not_settling (n : nat) (e : Event) : Prop :=
  forall o, e <> PlaySettled n o.

(** The playback request numbered [n] is pending, it is the only one with
    that number, and [loadTrack] waits for it. *)
Definition load_request_held (n : nat) (s : Player) : Prop :=
  In (n, PlayInLoadTrack) (pending s)
  /\ (forall r, In r (pending s) -> fst r = n -> snd r = PlayInLoadTrack)
  /\ (n < nextRequest s)%nat.

(** The queue and the index [loadTrack] installs. *)
Definition installed_queue (track : Track.t) (queue0 : option (list Track.t))
  : list Track.t :=
  match queue0 with Some q => q | None => [track] end.

Definition installed_index (queue0 : option (list Track.t)) (startIndex : Z)
  : Z :=
  match queue0 with Some _ => startIndex | None => 0 end.


(** ** The queue position *)

(** The invariant of the data model: no selection, or a position inside the
    queue. *)
Definition index_ok (s : Player) : Prop :=
  currentIndex s = -1 \/ 0 <= currentIndex s < queue_length s.

(** What the callers owe: [loadTrack] is given a start index inside the queue
    it is given, and [Math.random()] returns a number in [0, 1). *)
Definition event_ok (e : Event) : Prop :=
  match e with
  | LoadTrack _ (Some q) startIndex =>
      0 <= startIndex < Z.of_nat (List.length q)
  | ClickNext rnd | AudioEnded rnd | KeyDown rnd _ _ => (0 <= rnd < 1)%Q
  | _ => True
  end.

(** Clicks on the next button and results of playback requests. *)
Definition next_or_settled (e : Event) : bool :=
  match e with
  | ClickNext _ | PlaySettled _ _ => true
  | _ => false
  end.

Definition count_next (es : list Event) : nat :=
  List.length
    (filter (fun e => match e with ClickNext _ => true | _ => false end) es).

(** The position in the queue and the two volumes, to tell what an operation
    leaves alone. *)
Definition same_position (s s' : Player) : Prop :=
  currentIndex s' = currentIndex s /\ queue s' = queue s.

Definition same_volumes (s s' : Player) : Prop :=
  volume s' = volume s /\ Audio.volume (audio s') = Audio.volume (audio s).

(** ** The volume *)

(** The output volume is 0 or the stored volume; and the two are equal. *)
Definition volume_ok (s : Player) : Prop :=
  Audio.volume (audio s) = Num 0 \/ Audio.volume (audio s) = volume s.

Definition unmuted (s : Player) : Prop :=
  Audio.volume (audio s) = volume s.

(** The events that call [toggleMute()]: a click on the volume button and
    the key m outside a text input. *)
Definition calls_toggleMute (e : Event) : bool :=
  match e with
  | ClickVolume => true
  | KeyDown _ tagName key =>
      negb ((tagName =? "INPUT")%string || (tagName =? "TEXTAREA")%string)
      && (key =? "m")%string
  | _ => false
  end.

(** The controller after [setVolume(0.5)] and a click on the volume button. *)
Definition mutedHalf : Player :=
  toggleMute (setVolume (Num (1 # 2)) player0).

(** ** Proof automation *)

Ltac by_cases :=
  repeat match goal with
         | |- context [if ?b then _ else _] => destruct b
         end;
  repeat split.


(** ** Further notions used by the properties below *)

(** A state the controller reaches from its construction on some page. *)
Definition reached_by (es : list Event) (a : Audio.t) (el : Elements.t)
  : Player :=
  run es (constructor a el).

(** A finite number between [lo] and [hi]. *)
Definition within (lo hi : Q) (v : number) : Prop :=
  match v with
  | NaN => False
  | Num q => (lo <= q <= hi)%Q
  end.

(** The error toasts among the effects. *)
Definition is_error_toast (e : Effect) : bool :=
  match e with
  | Toast _ type => (type =? "error")%string
  | _ => false
  end.

(** The tag of an element that is no text input. *)
Definition outside_text_input (tagName : string) : Prop :=
  ((tagName =? "INPUT")%string || (tagName =? "TEXTAREA")%string) = false.

(** Both volumes are finite numbers between 0 and 1. *)
Definition volume_range (s : Player) : Prop :=
  within 0 1 (volume s) /\ within 0 1 (Audio.volume (audio s)).

(** The icon [updateVolumeIcon] should show for an output volume [q]. *)
Definition icon_tier (q : Q) : VolumeIcon :=
  if Qeq_bool q 0 then IconMuted
  else if Qltb q (1 # 2) then IconLow
  else IconHigh.

(** ** Progress display *)

(** [a / b] for a nonzero [b].  A zero divisor gives an infinity in
    JavaScript, which is outside the number model; where the quotient is used
    the divisor has been tested to be truthy. *)
Definition quotient (a b : number) : number :=
  match a, b with
  | Num x, Num y => if Qeq_bool y 0 then NaN else Num (x / y)
  | _, _ => NaN
  end.

(** [updateProgress()]: the percentage it writes to the progress bar and the
    fill, and the text it writes to the elapsed-time label; [None] when the
    duration is unknown and it returns at once. *)
Definition updateProgress (s : Player) : option (number * string) :=
  if negb (truthy (Audio.duration (audio s))) then None
  else
    let percent :=
      mul (quotient (Audio.currentTime (audio s)) (Audio.duration (audio s)))
        (Num 100) in
    Some (percent, formatTime (Audio.currentTime (audio s))).

(** [updateDuration()]: the text it writes to the duration label, if any. *)
Definition updateDuration (s : Player) : option string :=
  if truthy (Audio.duration (audio s)) then
    Some (formatTime (Audio.duration (audio s)))
  else None.

(** ** Keyboard seeking *)

(** Presses of the left and right arrow keys, on whatever element. *)
Definition is_arrow_seek (e : Event) : bool :=
  match e with
  | KeyDown _ _ key => (key =? "ArrowLeft")%string || (key =? "ArrowRight")%string
  | _ => false
  end.

(** The position is a finite number in [0, d] and the duration is [d]. *)
Definition position_within (d : Q) (s : Player) : Prop :=
  Audio.duration (audio s) = Num d
  /\ within 0 d (Audio.currentTime (audio s)).

(** ** What the page shows *)

(** While playing, the play/pause button offers to pause. *)
Definition button_shows_state (s : Player) : Prop :=
  Elements.playPauseTitle (elements s)
  = (if isPlaying s then "Pause" else "Play")%string.

(** The loaded track is the one shown and the one bound to the audio
    element, and the transport controls are enabled. *)
Definition shows_loaded_track (s : Player) : Prop :=
  forall track, currentTrack s = Some track ->
    Elements.currentTrackTitle (elements s) = Track.title track
    /\ Elements.currentTrackArtist (elements s) = Track.artist track
    /\ Audio.src (audio s)
       = ("http://localhost:3000" ++ Track.url track)%string
    /\ Elements.controlsEnabled (elements s) = true.

(** ** Handlers as sequences of basic updates *)

(** The updates the handlers are made of.  [loadTrack(undefined, ...)] is
    among them only when [u] is [true]; the two that may report a failure,
    the settlement of a playback request and the handler of the audio
    element's error event, only when [q] is [true]. *)
Inductive basic (u q : bool) : Player -> Player -> Prop :=
| b_loadTrack track queue0 startIndex s :
    basic u q s (loadTrack track queue0 startIndex s)
| b_loadTrack_undefined queue0 startIndex s :
    u = true -> basic u q s (loadTrack_undefined queue0 startIndex s)
| b_setIndex i s : basic u q s (set_currentIndex i s)
| b_setTime v s :
    basic u q s (set_audio (Audio.set_currentTime v (audio s)) s)
| b_setDuration v s :
    basic u q s (set_audio (Audio.set_duration v (audio s)) s)
| b_setSlider v s :
    basic u q s (set_elements (Elements.set_volumeSlider v (elements s)) s)
| b_pause s : basic u q s (pause s)
| b_play s : basic u q s (play s)
| b_settle id o s : q = true -> basic u q s (settle id o s)
| b_handleAudioError s : q = true -> basic u q s (handleAudioError s)
| b_setVolume v s : basic u q s (setVolume v s)
| b_toggleMute s : basic u q s (toggleMute s)
| b_toggleShuffle s : basic u q s (toggleShuffle s)
| b_cycleRepeatMode s : basic u q s (cycleRepeatMode s).

Inductive steps (u q : bool) : Player -> Player -> Prop :=
| steps_refl s : steps u q s s
| steps_then s s' s'' : steps u q s s' -> basic u q s' s'' -> steps u q s s''.

(** Split a composed update into its basic updates, outermost first. *)
Ltac by_steps :=
  first [ apply steps_refl
        | eapply steps_then;
          [| solve [constructor; reflexivity | constructor; assumption
                   | constructor] ];
          by_steps ].

(** ** Pending playback requests *)

(** No two pending requests share a number, and every number in use is
    below the next one to be handed out. *)
Definition requests_wf (s : Player) : Prop :=
  NoDup (map fst (pending s)) /\ requests_numbered s.

(** Case analysis on a basic update, with the record fields computed. *)
Ltac basic_cases H :=
  destruct H as [ track queue0 startIndex s | queue0 startIndex s Hu
                | i s | v s | v s | v s | s | s | id o s Hq | s Hq
                | v s | s | s | s ];
  try destruct queue0;
  unfold handleAudioError, settle, loadTrack, loadTrack_undefined, pause,
    play, play_request, setVolume, toggleMute, toggleShuffle,
    cycleRepeatMode;
  try match goal with
      | |- context [take_request ?id (pending ?s)] =>
          let E := fresh "Etake" in
          destruct (take_request id (pending s)) as [[|] |] eqn:E; destruct o
      end;
  unfold loadTrack_resume, play_resume, updateNowPlaying, updateControlsState,
    updatePlayPauseButton, updateVolumeIcon, showToast;
  try match goal with
      | |- context [gt (Audio.volume (audio ?s)) (Num 0)] =>
          destruct (gt (Audio.volume (audio s)) (Num 0))
      end;
  cbn [currentTrack queue currentIndex isPlaying isShuffled repeatMode volume
       audio elements pending nextRequest output set_currentTrack set_queue
       set_currentIndex set_isPlaying set_isShuffled set_repeatMode set_volume
       set_audio set_elements set_pending set_nextRequest emit
       Elements.volumeSlider Elements.volumeIcon Elements.controlsEnabled
       Elements.playPauseTitle Elements.currentTrackTitle
       Elements.currentTrackArtist Elements.set_volumeSlider
       Elements.set_volumeIcon Elements.set_controlsEnabled
       Elements.set_playPauseTitle Elements.set_nowPlaying
       Audio.src Audio.volume Audio.currentTime Audio.duration Audio.set_src
       Audio.set_volume Audio.set_currentTime Audio.set_duration Audio.load].

(** ** Reports of a failed load *)

(** What [loadTrack]'s [catch] emits, and a track-changed event without a
    track. *)
Definition load_failure (e : Effect) : bool :=
  match e with
  | ConsoleError msg => (msg =? "Error loading track:")%string
  | Toast message _ => (message =? "Error loading track")%string
  | TrackChanged None => true
  | TrackChanged (Some _) => false
  end.

(** A [loadTrack] is waiting for its playback request. *)
Definition load_pending (s : Player) : Prop :=
  exists id, In (id, PlayInLoadTrack) (pending s).

(** While a [loadTrack] waits a track is loaded, and no failed load has been
    reported. *)
Definition loads_clean (s : Player) : Prop :=
  (load_pending s -> currentTrack s <> None)
  /\ existsb load_failure (output s) = false.

(** ** The page starts playback (public/js/script.js) *)

(** A playlist as the API returns it, with its tracks populated. *)
Module Playlist.
Record t : Type := mk {
  id : string;
  name : string;
  tracks : list Track.t
}.
End Playlist.

(** The part of [AppState] that [playTrack] reads. *)
Module App.
Record state : Type := mk {
  tracks : list Track.t;
  currentView : string;
  currentPlaylist : option Playlist.t
}.
End App.

(** [Array.prototype.findIndex]: the first index from [i] on whose element
    satisfies [f], or -1. *)
Fixpoint findIndex_from (f : Track.t -> bool) (l : list Track.t) (i : Z) : Z :=
  match l with
  | [] => -1
  | x :: l' => if f x then i else findIndex_from f l' (i + 1)
  end.

Definition findIndex (f : Track.t -> bool) (l : list Track.t) : Z :=
  findIndex_from f l 0.

(** [playTrack(trackId)] *)
Definition playTrack (trackId : string) (app : App.state) (s : Player)
  : Player :=
  match find (fun t => (Track.id t =? trackId)%string) (App.tracks app) with
  | None => s
  | Some track =>
      let queue :=
        if (App.currentView app =? "playlist-detail")%string then
          match App.currentPlaylist app with
          | Some playlist => Playlist.tracks playlist
          | None => App.tracks app
          end
        else App.tracks app in
      let index := findIndex (fun t => (Track.id t =? trackId)%string) queue in
      loadTrack track (Some queue) index s
  end.

(** The view lists the whole library, not a playlist. *)
Definition library_view (app : App.state) : Prop :=
  App.currentPlaylist app = None
  \/ (App.currentView app =? "playlist-detail")%string = false.

(** The view is the detail page of the playlist [p]. *)
Definition playlist_view (app : App.state) (p : Playlist.t) : Prop :=
  App.currentView app = "playlist-detail"%string
  /\ App.currentPlaylist app = Some p.

(** ** The queue view *)

(** [a || b] on numbers. *)
Definition or_else (a b : number) : number := if truthy a then a else b.

(** One row of the queue view: its number, title, artist and time texts, and
    whether it carries the class [playing]. *)
Module QueueItem.
Record t : Type := mk {
  number : Z;
  title : string;
  artist : string;
  time : string;
  playing : bool
}.
End QueueItem.

(** The rows [showQueue()] builds with [this.queue.forEach((track, index) =>
    ...)], from the index [index] on. *)
Fixpoint queue_rows (current : Z) (l : list Track.t) (index : Z)
  : list QueueItem.t :=
  match l with
  | [] => []
  | track :: l' =>
      QueueItem.mk (index + 1) (Track.title track) (Track.artist track)
        (formatTime (or_else (Track.duration track) (Num 0)))
        (index =? current)
      :: queue_rows current l' (index + 1)
  end.

(** [showQueue()]: [None] is the text "No tracks in queue". *)
Definition showQueue (s : Player) : option (list QueueItem.t) :=
  if queue_length s =? 0 then None
  else Some (queue_rows (currentIndex s) (queue s) 0).

(** The click listener of the row built for [track] at [index]. *)
Definition queueItemClick (track : Track.t) (index : Z) (s : Player) : Player :=
  loadTrack track (Some (queue s)) index s.

(** ** Tracks ending one after the other *)

(** Ends of tracks and results of playback requests. *)
Definition ended_or_settled (e : Event) : bool :=
  match e with
  | AudioEnded _ | PlaySettled _ _ => true
  | _ => false
  end.

Definition count_ended (es : list Event) : nat :=
  List.length
    (filter (fun e => match e with AudioEnded _ => true | _ => false end) es).

(** The index after [k] tracks have ended, from index [i] in a queue of
    length [n], shuffle being off. *)
Definition index_after_ends (m : RepeatMode) (i n : Z) (k : nat) : Z :=
  match m with
  | RepeatOne => i
  | RepeatAll => (i + Z.of_nat k) mod n
  | RepeatOff => Z.min (i + Z.of_nat k) (n - 1)
  end.

(** ** Failures and their reports *)

(** The number of error toasts shown so far. *)
Definition error_toasts (s : Player) : nat :=
  List.length (filter is_error_toast (output s)).

(** The events that deliver no failure. *)
Definition quiet_event (e : Event) : bool :=
  match e with
  | AudioError | PlaySettled _ _ => false
  | _ => true
  end.

(** Whether the event [e], arriving in state [s], is a failure: an error
    event of the audio element, or the rejection of a pending playback
    request. *)
Definition failure_count (e : Event) (s : Player) : nat :=
  match e with
  | AudioError => 1
  | PlaySettled id Rejected =>
      match take_request id (pending s) with
      | Some _ => 1
      | None => 0
      end
  | _ => 0
  end.

Fixpoint failures (es : list Event) (s : Player) : nat :=
  match es with
  | [] => 0
  | e :: es' => failure_count e s + failures es' (handle e s)
  end.
(** * Properties *)

(** ** Time formatting *)

Lemma Qfloor_divc (q : Q) (d : positive) :
  Qfloor (q / inject_Z (Zpos d)) = Qfloor q / Zpos d.
Proof.
  destruct q as [n m]. unfold Qdiv, Qmult, Qinv, inject_Z, Qfloor. simpl.
  rewrite Z.mul_1_r, Pos2Z.inj_mul, Z.div_div; lia.
Qed.

Lemma Qfloor_sub_inject (q : Q) (z : Z) :
  Qfloor (q - inject_Z z) = Qfloor q - z.
Proof.
  destruct q as [n m]. unfold Qminus, Qplus, Qopp, inject_Z, Qfloor. simpl.
  rewrite Pos.mul_1_r, Z.mul_1_r.
  replace (n + - z * Zpos m) with (n + (- z) * Zpos m) by lia.
  rewrite Z.div_add by lia. lia.
Qed.

Lemma divc_nonneg (q : Q) (d : positive) :
  (0 <= q)%Q -> (0 <= q / inject_Z (Zpos d))%Q.
Proof.
  intros H. destruct q as [n m]. unfold Qle, Qdiv, Qmult, Qinv, inject_Z in *.
  simpl in *. lia.
Qed.

Lemma remc_floor (q : Q) (d : positive) :
  (0 <= q)%Q -> Math_floor (remc (Num q) d) = Int (Qfloor q mod Zpos d).
Proof.
  intros H. unfold remc, Math_floor, Qtrunc.
  pose proof (divc_nonneg q d H) as Hd.
  apply Qle_bool_iff in Hd. rewrite Hd. f_equal.
  change (inject_Z (Zpos d) * inject_Z (Qfloor (q / inject_Z (Zpos d))))%Q
    with (inject_Z (Zpos d * Qfloor (q / inject_Z (Zpos d)))).
  rewrite Qfloor_sub_inject, Qfloor_divc.
  rewrite Z.mod_eq by lia. reflexivity.
Qed.

Lemma padStart_two_digits (r : Z) :
  0 <= r < 60 -> padStart (toString (Int r)) 2 "0" = two_digits r.
Proof.
  intros H.
  assert (Hall : forallb
            (fun n => String.eqb
                        (padStart (toString (Int (Z.of_nat n))) 2 "0")
                        (two_digits (Z.of_nat n)))
            (seq 0 60) = true) by (vm_compute; reflexivity).
  rewrite forallb_forall in Hall.
  specialize (Hall (Z.to_nat r)).
  rewrite Z2Nat.id in Hall by lia.
  apply String.eqb_eq, Hall, in_seq. lia.
Qed.

(** *** Rounding to a double *)

Lemma pow2_pos (e : Z) : (0 < 2 ^ e)%Q.
Proof. apply Qpower_0_lt. reflexivity. Qed.

Lemma pow2_add (a b : Z) : (2 ^ (a + b) == 2 ^ a * 2 ^ b)%Q.
Proof. apply Qpower_plus. discriminate. Qed.

Lemma pow2_sub (a b : Z) : (2 ^ (a - b) == 2 ^ a / 2 ^ b)%Q.
Proof. apply Qpower_minus. discriminate. Qed.

Lemma pow2_le (a b : Z) : a <= b -> (2 ^ a <= 2 ^ b)%Q.
Proof. intros H. apply Qpower_le_compat_l; [exact H | discriminate]. Qed.

Lemma pow2_lt (a b : Z) : a < b -> (2 ^ a < 2 ^ b)%Q.
Proof. intros H. apply Qpower_lt_compat_l; [exact H | reflexivity]. Qed.

Lemma pow2_lt_inv (a b : Z) : (2 ^ a < 2 ^ b)%Q -> a < b.
Proof. intros H. apply (Qpower_lt_compat_l_inv 2); [exact H | reflexivity]. Qed.

Lemma pow2_inject (n : Z) : 0 <= n -> (inject_Z (2 ^ n) == 2 ^ n)%Q.
Proof. intros H. apply (Zpower_Qpower 2 n H). Qed.

Lemma pow2_succ (a : Z) : (2 ^ (a + 1) == 2 * 2 ^ a)%Q.
Proof. rewrite pow2_add. change (2 ^ 1)%Q with 2%Q. ring. Qed.

Lemma binade_spec (x : Q) :
  (0 < x)%Q -> (2 ^ binade x <= x /\ x < 2 ^ (binade x + 1))%Q.
Proof.
  intros Hx. unfold binade.
  assert (Habs : (Qabs x == x)%Q) by (apply Qabs_pos; lra).
  destruct x as [n d].
  assert (Hn : 0 < n) by (unfold Qlt in Hx; simpl in Hx; lia).
  cbn [Qnum Qden]. rewrite (Z.abs_eq n) by lia.
  set (a := Z.log2 n). set (c := Z.log2 (Zpos d)).
  pose proof (Z.log2_spec n Hn) as Ha. fold a in Ha.
  pose proof (Z.log2_spec (Zpos d) eq_refl) as Hc. fold c in Hc.
  assert (Ha0 : 0 <= a) by apply Z.log2_nonneg.
  assert (Hc0 : 0 <= c) by apply Z.log2_nonneg.
  assert (HN : (inject_Z n == (n # d) * inject_Z (Zpos d))%Q).
  { rewrite (Qmake_Qdiv n d). field. discriminate. }
  set (x := (n # d)%Q) in *.
  assert (A1 : (2 ^ a <= inject_Z n)%Q)
    by (rewrite <- pow2_inject by lia; rewrite <- Zle_Qle; lia).
  assert (A2 : (inject_Z n < 2 * 2 ^ a)%Q).
  { rewrite <- pow2_succ, <- pow2_inject by lia. rewrite <- Zlt_Qlt.
    unfold Z.succ in Ha. lia. }
  assert (C1 : (2 ^ c <= inject_Z (Zpos d))%Q)
    by (rewrite <- pow2_inject by lia; rewrite <- Zle_Qle; lia).
  assert (C2 : (inject_Z (Zpos d) < 2 * 2 ^ c)%Q).
  { rewrite <- pow2_succ, <- pow2_inject by lia. rewrite <- Zlt_Qlt.
    unfold Z.succ in Hc. lia. }
  assert (G : (2 ^ (a - c) * 2 ^ c == 2 ^ a)%Q).
  { rewrite <- pow2_add. replace (a - c + c) with a by lia. reflexivity. }
  pose proof (pow2_pos a) as Pa. pose proof (pow2_pos c) as Pc.
  pose proof (pow2_pos (a - c)) as Pg.
  set (pa := (2 ^ a)%Q) in *. set (pc := (2 ^ c)%Q) in *.
  set (pg := (2 ^ (a - c))%Q) in *. set (D := inject_Z (Zpos d)) in *.
  set (N := inject_Z n) in *.
  destruct (Qle_bool pg (Qabs x)) eqn:E.
  - apply Qle_bool_iff in E. rewrite Habs in E. split; [exact E |].
    rewrite pow2_succ. fold pg. nra.
  - assert (E' : (x < pg)%Q).
    { apply Qnot_le_lt. intros H. rewrite <- Habs in H.
      apply Qle_bool_iff in H. congruence. }
    replace (a - c - 1 + 1) with (a - c) by lia. split; [| exact E'].
    assert (G' : (2 * 2 ^ (a - c - 1) == pg)%Q).
    { rewrite <- pow2_succ. replace (a - c - 1 + 1) with (a - c) by lia.
      reflexivity. }
    pose proof (pow2_pos (a - c - 1)) as Pg'.
    set (pg' := (2 ^ (a - c - 1))%Q) in *. nra.
Qed.

Lemma round_half_even_bounds (x : Q) :
  (x - (1 # 2) <= inject_Z (round_half_even x)
   /\ inject_Z (round_half_even x) <= x + (1 # 2))%Q.
Proof.
  unfold round_half_even.
  pose proof (Qfloor_le x) as H1. pose proof (Qlt_floor x) as H2.
  rewrite inject_Z_plus in H2. change (inject_Z 1) with 1%Q in H2.
  destruct (Qcompare_spec (x - inject_Z (Qfloor x)) (1 # 2)) as [E | E | E].
  - destruct (Z.even (Qfloor x));
      rewrite ?inject_Z_plus; change (inject_Z 1) with 1%Q; lra.
  - lra.
  - rewrite inject_Z_plus. change (inject_Z 1) with 1%Q. lra.
Qed.

Lemma round_half_even_whole (x : Q) (k : Z) :
  (x == inject_Z k)%Q -> round_half_even x = k.
Proof.
  intros H. unfold round_half_even.
  rewrite (Qfloor_comp _ _ H), Qfloor_Z.
  destruct (Qcompare_spec (x - inject_Z k) (1 # 2)) as [E | E | E];
    [lra | reflexivity | lra].
Qed.

Lemma Qfloor_between (r : Q) (k : Z) :
  (inject_Z k <= r)%Q -> (r < inject_Z (k + 1))%Q -> Qfloor r = k.
Proof.
  intros H1 H2.
  pose proof (Qfloor_resp_le _ _ H1) as L. rewrite Qfloor_Z in L.
  pose proof (Qfloor_le r) as U.
  assert (U' : (inject_Z (Qfloor r) < inject_Z (k + 1))%Q) by lra.
  rewrite <- Zlt_Qlt in U'. lia.
Qed.

Lemma inject_Z_ge_half (a b : Z) :
  (inject_Z b - (1 # 2) <= inject_Z a)%Q -> b <= a.
Proof.
  intros H.
  assert (H' : (inject_Z (b - 1) < inject_Z a)%Q).
  { unfold Z.sub. rewrite inject_Z_plus, inject_Z_opp.
    change (inject_Z 1) with 1%Q. lra. }
  rewrite <- Zlt_Qlt in H'. lia.
Qed.

(** Scaling a whole number by a non-positive exponent gives a whole number. *)
Lemma scale_whole (k e : Z) :
  e <= 0 -> (inject_Z k / 2 ^ e == inject_Z (k * 2 ^ (- e)))%Q.
Proof.
  intros He. rewrite inject_Z_mult, pow2_inject by lia.
  rewrite Qpower_opp. field. apply Qpower_not_0. discriminate.
Qed.

Lemma round_double_finite (x : Q) :
  let e := ulp_exponent x in
  let r := (inject_Z (round_half_even (x / 2 ^ e)) * 2 ^ e)%Q in
  (Qabs r < 2 ^ 1024)%Q -> round_double x = Finite (Num r).
Proof.
  intros e r H. unfold round_double. fold e. fold r.
  destruct (Qle_bool (2 ^ 1024) (Qabs r)) eqn:E; [| reflexivity].
  apply Qle_bool_iff in E. exfalso. apply (Qlt_not_le _ _ H). exact E.
Qed.

Lemma is_double_decompose (q : Q) :
  (0 < q)%Q -> is_double q = true ->
  exists m j : Z, 0 < m < 2 ^ 53 /\ (q == inject_Z m * 2 ^ j)%Q.
Proof.
  intros H0 Hd. unfold is_double, round_double in Hd.
  set (e := ulp_exponent q) in *.
  set (R := round_half_even (q / 2 ^ e)) in *.
  destruct (Qle_bool (2 ^ 1024) (Qabs (inject_Z R * 2 ^ e))).
  { destruct (Qle_bool 0 q); discriminate Hd. }
  apply Qeq_bool_iff in Hd.
  exists R, e. split; [| symmetry; exact Hd].
  destruct (binade_spec q H0) as [_ B2].
  assert (He : binade q + 1 <= 53 + e) by (unfold e, ulp_exponent; lia).
  pose proof (pow2_le _ _ He) as Hp. rewrite (pow2_add 53 e) in Hp.
  assert (P53 : (inject_Z (2 ^ 53) == 2 ^ 53)%Q) by (apply pow2_inject; lia).
  pose proof (pow2_pos e) as Pe.
  set (P := (2 ^ e)%Q) in *. set (B := (2 ^ (binade q + 1))%Q) in *.
  set (S53 := (2 ^ 53)%Q) in *.
  assert (L : (0 < inject_Z R)%Q) by nra.
  assert (U : (inject_Z R < inject_Z (2 ^ 53))%Q).
  { rewrite P53. fold S53. apply (Qmult_lt_r _ _ P Pe). lra. }
  change 0%Q with (inject_Z 0) in L.
  rewrite <- Zlt_Qlt in L, U. lia.
Qed.

Lemma div60_floor (q : Q) :
  (0 < q)%Q -> (q < 60 * 2 ^ 50)%Q -> is_double q = true ->
  exists r, round_double (q / 60) = Finite (Num r)
            /\ Qfloor r = Qfloor (q / 60).
Proof.
  intros H0 Hb Hd.
  pose proof (round_double_finite (q / 60)) as Hfin. cbv zeta in Hfin.
  set (x := (q / 60)%Q) in *.
  assert (Hx : (x * 60 == q)%Q) by (unfold x; field).
  assert (Hx0 : (0 < x)%Q) by lra.
  assert (P50 : (inject_Z (2 ^ 50) == 2 ^ 50)%Q) by (apply pow2_inject; lia).
  assert (Hx50 : (x < inject_Z (2 ^ 50))%Q) by (rewrite P50; lra).
  destruct (binade_spec x Hx0) as [B1 _].
  assert (Hbeta : binade x < 50)
    by (apply pow2_lt_inv; rewrite <- P50; lra).
  set (e := ulp_exponent x) in *.
  assert (He3 : e <= -3) by (unfold e, ulp_exponent; lia).
  pose proof (pow2_pos e) as Pe.
  assert (Pe8 : (2 ^ e <= 1 # 8)%Q) by (apply (pow2_le e (-3)); lia).
  destruct (round_half_even_bounds (x / 2 ^ e)) as [R1 R2].
  set (R := round_half_even (x / 2 ^ e)) in *.
  assert (Hy : (x / 2 ^ e * 2 ^ e == x)%Q) by (field; lra).
  set (k := Qfloor x).
  pose proof (Qfloor_le x) as K1. fold k in K1.
  pose proof (Qlt_floor x) as K2. fold k in K2.
  rewrite inject_Z_plus in K2. change (inject_Z 1) with 1%Q in K2.
  assert (Hk0 : 0 <= k).
  { change (Qfloor 0 <= Qfloor x). apply Qfloor_resp_le. lra. }
  assert (Hk50 : k < 2 ^ 50).
  { rewrite Zlt_Qlt. lra. }
  pose proof (scale_whole k e ltac:(lia)) as HK.
  set (K := k * 2 ^ (- e)) in *.
  set (P := (2 ^ e)%Q) in *. set (y := (x / P)%Q) in *.
  assert (HKy : (inject_Z K <= y)%Q).
  { assert (HK' : (inject_Z K * P == inject_Z k)%Q)
      by (rewrite <- HK; field; lra).
    nra. }
  assert (HRK : K <= R) by (apply inject_Z_ge_half; lra).
  rewrite Zle_Qle in HRK.
  assert (Lower : (inject_Z k <= inject_Z R * P)%Q).
  { assert (HK' : (inject_Z K * P == inject_Z k)%Q)
      by (rewrite <- HK; field; lra).
    nra. }
  assert (Upper : (inject_Z R * P < inject_Z k + 1)%Q).
  { assert (Hhalf : (30 * P < 60 * (inject_Z k + 1) - q)%Q).
    { destruct (Qlt_le_dec q 32) as [Hs | Hl].
      - assert (Hk : k = 0).
        { apply Qfloor_between;
            [change (0 <= x)%Q | change (x < 1)%Q]; lra. }
        rewrite Hk. change (inject_Z 0) with 0%Q. lra.
      - destruct (is_double_decompose q H0 Hd) as (m & j & [Hm0 Hm] & Hq).
        rewrite Zlt_Qlt in Hm0. rewrite Zlt_Qlt in Hm.
        assert (P53 : (inject_Z (2 ^ 53) == 2 ^ 53)%Q)
          by (apply pow2_inject; lia).
        pose proof (pow2_pos j) as Pj.
        assert (Hj : -48 < j).
        { assert (H5 : (2 ^ 5 < 2 ^ (53 + j))%Q).
          { rewrite pow2_add, <- P53.
            change (2 ^ 5)%Q with 32%Q.
            set (Pj' := (2 ^ j)%Q) in *. change (inject_Z 0) with 0%Q in Hm0. nra. }
          apply pow2_lt_inv in H5. lia. }
        assert (Hej : e <= j - 5).
        { assert (H48 : (2 ^ binade x < 2 ^ (48 + j))%Q).
          { rewrite pow2_add. change (2 ^ 48)%Q with (inject_Z (2 ^ 48)).
            set (Pj' := (2 ^ j)%Q) in *. set (Bx := (2 ^ binade x)%Q) in *.
            assert (M : (inject_Z (2 ^ 53) == 32 * inject_Z (2 ^ 48))%Q)
              by reflexivity.
            change (inject_Z 0) with 0%Q in Hm0. nra. }
          apply pow2_lt_inv in H48. unfold e, ulp_exponent. lia. }
        assert (Pej : (32 * P <= 2 ^ j)%Q).
        { pose proof (pow2_le e (j - 5) Hej) as Hp. fold P in Hp.
          assert (E32 : (32 * 2 ^ (j - 5) == 2 ^ j)%Q).
          { rewrite pow2_sub. change (2 ^ 5)%Q with 32%Q. field. }
          lra. }
        assert (Hdelta : (0 < 60 * (inject_Z k + 1) - q)%Q) by lra.
        destruct (Z_le_gt_dec j 2) as [J | J].
        + set (W := 15 * (k + 1) * 2 ^ (2 - j) - m).
          assert (HW : (inject_Z W * 2 ^ j == 60 * (inject_Z k + 1) - q)%Q).
          { unfold W, Z.sub. rewrite inject_Z_plus, inject_Z_opp.
            rewrite !inject_Z_mult, inject_Z_plus.
            fold (Z.sub 2 j). rewrite pow2_inject by lia.
            rewrite pow2_sub. change (2 ^ 2)%Q with 4%Q.
            change (inject_Z 15) with 15%Q. change (inject_Z 1) with 1%Q.
            rewrite Hq. field. lra. }
          assert (HW1 : (1 <= inject_Z W)%Q).
          { change 1%Q with (inject_Z 1). rewrite <- Zle_Qle.
            assert (HW0 : (0 < inject_Z W)%Q).
            { set (Pj' := (2 ^ j)%Q) in *. nra. }
            change 0%Q with (inject_Z 0) in HW0. rewrite <- Zlt_Qlt in HW0.
            lia. }
          set (Pj' := (2 ^ j)%Q) in *. nra.
        + set (W := 15 * (k + 1) - m * 2 ^ (j - 2)).
          assert (HW : (inject_Z W * 4 == 60 * (inject_Z k + 1) - q)%Q).
          { unfold W, Z.sub. rewrite inject_Z_plus, inject_Z_opp.
            rewrite !inject_Z_mult, inject_Z_plus.
            fold (Z.sub j 2). rewrite pow2_inject by lia.
            rewrite pow2_sub. change (2 ^ 2)%Q with 4%Q.
            change (inject_Z 15) with 15%Q. change (inject_Z 1) with 1%Q.
            rewrite Hq. field. }
          assert (HW1 : (1 <= inject_Z W)%Q).
          { change 1%Q with (inject_Z 1). rewrite <- Zle_Qle.
            assert (HW0 : (0 < inject_Z W)%Q) by lra.
            change 0%Q with (inject_Z 0) in HW0. rewrite <- Zlt_Qlt in HW0.
            lia. }
          lra. }
    nra. }
  exists (inject_Z R * P)%Q. split.
  - apply Hfin.
    assert (Habs : (Qabs (inject_Z R * P) == inject_Z R * P)%Q).
    { apply Qabs_pos. rewrite Zle_Qle in Hk0. change (inject_Z 0) with 0%Q in Hk0. lra. }
    rewrite Habs.
    apply Qlt_trans with (inject_Z (2 ^ 50)).
    + assert (Hk' : (inject_Z (k + 1) <= inject_Z (2 ^ 50))%Q)
        by (rewrite <- Zle_Qle; lia).
      rewrite inject_Z_plus in Hk'. change (inject_Z 1) with 1%Q in Hk'. lra.
    + rewrite P50. apply pow2_lt. lia.
  - apply Qfloor_between; [exact Lower |].
    rewrite inject_Z_plus. exact Upper.
Qed.

(** A positive whole number below 2^53 is a double. *)
Lemma round_double_whole (c : Z) :
  0 < c < 2 ^ 53 ->
  exists r, round_double (inject_Z c) = Finite (Num r) /\ (r == inject_Z c)%Q.
Proof.
  intros [H0 H53].
  pose proof (round_double_finite (inject_Z c)) as Hfin. cbv zeta in Hfin.
  assert (Hc0 : (0 < inject_Z c)%Q)
    by (change 0%Q with (inject_Z 0); rewrite <- Zlt_Qlt; exact H0).
  destruct (binade_spec (inject_Z c) Hc0) as [B1 _].
  assert (P53 : (inject_Z (2 ^ 53) == 2 ^ 53)%Q) by (apply pow2_inject; lia).
  assert (Hbeta : binade (inject_Z c) < 53).
  { apply pow2_lt_inv. rewrite <- P53.
    apply Qle_lt_trans with (inject_Z c); [exact B1 |].
    rewrite <- Zlt_Qlt. exact H53. }
  set (e := ulp_exponent (inject_Z c)) in *.
  assert (He : e <= 0) by (unfold e, ulp_exponent; lia).
  pose proof (scale_whole c e He) as Hs.
  rewrite (round_half_even_whole _ _ Hs) in Hfin.
  pose proof (pow2_pos e) as Pe.
  assert (Hr : (inject_Z (c * 2 ^ (- e)) * 2 ^ e == inject_Z c)%Q)
    by (rewrite <- Hs; field; lra).
  exists (inject_Z (c * 2 ^ (- e)) * 2 ^ e)%Q. split; [| exact Hr].
  apply Hfin. rewrite Hr, Qabs_pos by lra.
  apply Qlt_trans with (inject_Z (2 ^ 53)).
  - rewrite <- Zlt_Qlt. exact H53.
  - rewrite P53. apply pow2_lt. lia.
Qed.

(** Rounding a whole number from 2^53 on gives at least 2^53. *)
Lemma round_double_large (c : Z) (r : Q) :
  2 ^ 53 <= c -> round_double (inject_Z c) = Finite (Num r) ->
  (inject_Z (2 ^ 53) <= r)%Q.
Proof.
  intros H53 Hr. unfold round_double in Hr.
  assert (Hc0 : (0 < inject_Z c)%Q)
    by (change 0%Q with (inject_Z 0); rewrite <- Zlt_Qlt; lia).
  destruct (binade_spec (inject_Z c) Hc0) as [B1 B2].
  assert (P53 : (inject_Z (2 ^ 53) == 2 ^ 53)%Q) by (apply pow2_inject; lia).
  assert (Hbeta : 53 <= binade (inject_Z c)).
  { assert (H : (2 ^ 53 < 2 ^ (binade (inject_Z c) + 1))%Q).
    { rewrite <- P53.
      apply Qle_lt_trans with (inject_Z c); [| exact B2].
      rewrite <- Zle_Qle. exact H53. }
    apply pow2_lt_inv in H. lia. }
  set (e := ulp_exponent (inject_Z c)) in *.
  assert (He : e = binade (inject_Z c) - 52) by (unfold e, ulp_exponent; lia).
  destruct (round_half_even_bounds (inject_Z c / 2 ^ e)) as [R1 _].
  set (R := round_half_even (inject_Z c / 2 ^ e)) in *.
  destruct (Qle_bool (2 ^ 1024) (Qabs (inject_Z R * 2 ^ e))).
  { destruct (Qle_bool 0 (inject_Z c)); discriminate Hr. }
  inversion Hr as [Hr']. clear Hr Hr'.
  pose proof (pow2_pos e) as Pe.
  assert (P52 : (inject_Z (2 ^ 52) * 2 ^ e == 2 ^ binade (inject_Z c))%Q).
  { rewrite pow2_inject by lia. rewrite <- pow2_add.
    replace (52 + e) with (binade (inject_Z c)) by lia. reflexivity. }
  assert (Hy : (inject_Z c / 2 ^ e * 2 ^ e == inject_Z c)%Q) by (field; lra).
  assert (HR : 2 ^ 52 <= R).
  { apply inject_Z_ge_half.
    set (P := (2 ^ e)%Q) in *. set (y := (inject_Z c / P)%Q) in *.
    set (B := (2 ^ binade (inject_Z c))%Q) in *.
    assert (inject_Z (2 ^ 52) <= y)%Q by nra. lra. }
  rewrite Zle_Qle in HR.
  assert (P1 : (2 <= 2 ^ e)%Q) by (apply (pow2_le 1 e); lia).
  assert (M : (inject_Z (2 ^ 53) == inject_Z (2 ^ 52) * 2)%Q) by reflexivity.
  set (P := (2 ^ e)%Q) in *. rewrite M.
  assert (Q52 : (0 < inject_Z (2 ^ 52))%Q) by reflexivity.
  set (S52 := inject_Z (2 ^ 52)) in *. nra.
Qed.

Lemma reads_as_exact (c z : Z) :
  0 < c -> 0 <= z < 2 ^ 53 -> reads_as c z = true -> c = z.
Proof.
  intros Hc Hz H. unfold reads_as in H.
  destruct (Z_lt_ge_dec c (2 ^ 53)) as [Hs | Hl].
  - destruct (round_double_whole c (conj Hc Hs)) as (r & Hr & Er).
    rewrite Hr in H. apply Qeq_bool_iff in H. rewrite Er in H.
    unfold Qeq in H. simpl in H. lia.
  - destruct (round_double (inject_Z c)) as [[| r] | |] eqn:E;
      try discriminate H.
    apply Qeq_bool_iff in H.
    pose proof (round_double_large c r ltac:(lia) E) as Hr.
    rewrite H in Hr. rewrite <- Zle_Qle in Hr. lia.
Qed.

Lemma shortest_small (t : nat) (z : Z) :
  0 <= z < 2 ^ 53 -> shortest t z = z.
Proof.
  intros Hz. induction t as [| t IH]; [reflexivity |].
  cbn [shortest].
  set (p := 10 ^ Z.of_nat (S t)).
  set (lo := z / p * p). set (hi := lo + p).
  set (near := if _ : bool then lo else hi).
  set (far := if _ : bool then hi else lo).
  destruct ((0 <? near) && reads_as near z) eqn:E1.
  - apply andb_prop in E1. destruct E1 as [A B]. apply Z.ltb_lt in A.
    apply (reads_as_exact near z A Hz B).
  - destruct ((0 <? far) && reads_as far z) eqn:E2.
    + apply andb_prop in E2. destruct E2 as [A B]. apply Z.ltb_lt in A.
      apply (reads_as_exact far z A Hz B).
    + exact IH.
Qed.

Lemma whole_toString_small (z : Z) :
  0 <= z < 2 ^ 53 -> whole_toString z = decimal z.
Proof.
  intros Hz. unfold whole_toString. rewrite (shortest_small _ z Hz).
  assert (H : (z <? 10 ^ 21) = true) by (apply Z.ltb_lt; lia).
  rewrite H. reflexivity.
Qed.

Lemma toString_small (z : Z) :
  0 <= z < 2 ^ 53 -> toString (Int z) = decimal z.
Proof.
  intros Hz. unfold toString.
  destruct (z <? 0) eqn:E; [apply Z.ltb_lt in E; lia |].
  apply whole_toString_small, Hz.
Qed.

(** C8, refuted as stated: a negative number and an infinity are not
    treated as invalid, and neither result has the form minutes:seconds;
    and for the double 67553994410557496, which is 1125899906842624 whole
    minutes and 56 seconds, the rounded quotient gives one minute more. *)
Lemma formatTime_negative_infinite_large :
  formatTime (Num (-5)) = "-1:-5"%string
  /\ formatTime PosInfinity = "Infinity:NaN"%string
  /\ is_double 67553994410557496 = true
  /\ Qfloor 67553994410557496 / 60 = 1125899906842624
  /\ Qfloor 67553994410557496 mod 60 = 56
  /\ formatTime (Num 67553994410557496) = "1125899906842625:56"%string.
Proof. vm_compute. repeat split. Qed.

(** C8, amended: for a number of seconds that is finite, not negative and
    below 60 * 2^50, [formatTime] writes the whole minutes in decimal, a
    colon, and the whole remaining seconds with exactly two digits; [NaN]
    (a duration not yet known) gives "0:00"; and [formatTime(0)],
    [formatTime(65)] and [formatTime(3600)] are "0:00", "1:05" and "60:00".
    The quotient by 60 is the rounded one of the code: below the bound the
    rounding never reaches the next whole minute. *)
Theorem formatTime_minutes_seconds (q : Q)
    (Hd : is_double q = true)
    (H0 : (0 <= q)%Q) (Hb : (q < inject_Z (60 * 2 ^ 50))%Q) :
  formatTime (Num q)
  = (decimal (Qfloor q / 60) ++ ":" ++ two_digits (Qfloor q mod 60))%string
  /\ formatTime NaN = "0:00"%string
  /\ formatTime (Num 0) = "0:00"%string
  /\ formatTime (Num 65) = "1:05"%string
  /\ formatTime (Num 3600) = "60:00"%string.
Proof.
  split; [| vm_compute; repeat split].
  unfold formatTime. cbn [ToBoolean global_isNaN truthy isNaN].
  rewrite orb_false_r.
  destruct (Qeq_bool q 0) eqn:E; cbn [negb].
  - apply Qeq_bool_iff in E.
    rewrite (Qfloor_comp _ _ E). reflexivity.
  - assert (Hpos : (0 < q)%Q).
    { apply Qle_lteq in H0. destruct H0 as [H | H]; [exact H |].
      symmetry in H. apply Qeq_bool_iff in H. congruence. }
    assert (Hb' : (q < 60 * 2 ^ 50)%Q).
    { rewrite <- (pow2_inject 50) by lia. exact Hb. }
    destruct (div60_floor q Hpos Hb' Hd) as (r & Hr & Hfl).
    cbv zeta. cbn [div_double rem_double].
    rewrite remc_floor by exact H0.
    change (inject_Z 60) with 60%Q. rewrite Hr.
    cbn [Math_floor]. rewrite Hfl.
    change 60%Q with (inject_Z 60). rewrite Qfloor_divc.
    assert (Hm : 0 <= Qfloor q / 60 < 2 ^ 53).
    { assert (Hq0 : 0 <= Qfloor q).
      { change (Qfloor 0 <= Qfloor q). apply Qfloor_resp_le. exact H0. }
      assert (Hq1 : Qfloor q < 60 * 2 ^ 50).
      { rewrite Zlt_Qlt. apply Qle_lt_trans with q; [apply Qfloor_le | exact Hb]. }
      split; [apply Z.div_pos; lia |].
      apply Z.div_lt_upper_bound; lia. }
    rewrite (toString_small _ Hm).
    rewrite padStart_two_digits by (apply Z.mod_pos_bound; lia).
    reflexivity.
Qed.

Lemma formatTime_minutes_seconds_witness :
  formatTime (Num (251 # 2)) = "2:05"%string.
Proof.
  refine (eq_trans
            (proj1 (formatTime_minutes_seconds (251 # 2) _ _ _)) _).
  - vm_compute. reflexivity.
  - unfold Qle. simpl. lia.
  - vm_compute. reflexivity.
  - vm_compute. reflexivity.
Defined.

(** ** Pending playback requests *)

Lemma take_request_fresh (id : nat) (k : Awaiter) (l : list (nat * Awaiter)) :
  (forall r, In r l -> (fst r < id)%nat) ->
  take_request id (l ++ [(id, k)]) = Some k.
Proof.
  intros H. unfold take_request.
  induction l as [| r l IH]; simpl.
  - rewrite Nat.eqb_refl. reflexivity.
  - destruct (Nat.eqb (fst r) id) eqn:E.
    + apply Nat.eqb_eq in E. specialize (H r (or_introl eq_refl)). lia.
    + apply IH. intros r' Hr'. apply H. right. exact Hr'.
Qed.

Lemma drop_request_fresh (id : nat) (k : Awaiter) (l : list (nat * Awaiter)) :
  (forall r, In r l -> (fst r < id)%nat) ->
  drop_request id (l ++ [(id, k)]) = l.
Proof.
  intros H. unfold drop_request.
  induction l as [| r l IH]; simpl.
  - rewrite Nat.eqb_refl. reflexivity.
  - destruct (Nat.eqb (fst r) id) eqn:E.
    + apply Nat.eqb_eq in E. specialize (H r (or_introl eq_refl)). lia.
    + simpl. f_equal. apply IH. intros r' Hr'. apply H. right. exact Hr'.
Qed.

(** What the settlement of a [play()] promise leaves alone. *)
Lemma play_resume_frame (o : Outcome) (s : Player) :
  currentTrack (play_resume o s) = currentTrack s
  /\ queue (play_resume o s) = queue s
  /\ currentIndex (play_resume o s) = currentIndex s
  /\ audio (play_resume o s) = audio s
  /\ volume (play_resume o s) = volume s
  /\ pending (play_resume o s) = pending s.
Proof. destruct o; repeat split. Qed.

Lemma settle_frame (id : nat) (o : Outcome) (s : Player) :
  currentTrack (settle id o s) = currentTrack s
  /\ queue (settle id o s) = queue s
  /\ currentIndex (settle id o s) = currentIndex s
  /\ audio (settle id o s) = audio s
  /\ volume (settle id o s) = volume s
  /\ isShuffled (settle id o s) = isShuffled s
  /\ repeatMode (settle id o s) = repeatMode s.
Proof.
  unfold settle. destruct (take_request id (pending s)) as [k |];
    [| repeat split].
  destruct k, o; repeat split.
Qed.


(** A rejected [play()] reports one console error and one toast and changes
    nothing else but the list of pending requests. *)
Lemma play_rejected (s : Player) :
  requests_numbered s ->
  let s' := settle (nextRequest s) Rejected (play s) in
  isPlaying s' = isPlaying s
  /\ output s' = output s ++ [ConsoleError "Error playing audio:";
                              Toast "Error playing audio" "error"]
  /\ currentTrack s' = currentTrack s
  /\ queue s' = queue s
  /\ currentIndex s' = currentIndex s
  /\ pending s' = pending s.
Proof.
  intros Hn. unfold settle, play, play_request. simpl.
  rewrite take_request_fresh by exact Hn.
  rewrite drop_request_fresh by exact Hn.
  simpl. rewrite <- app_assoc. repeat split.
Qed.

(** C1. When the playback request of [play()] is rejected while the
    controller holds [isPlaying = true], the flag stays [true]: the controller
    is left in the playing state, not in the paused state, although one toast
    is shown and the track, the queue and the index are kept. *)
Theorem play_rejected_stays_playing :
  let s' := settle (nextRequest playingA) Rejected (play playingA) in
  phase playingA = LoadedPlaying
  /\ isPlaying s' = true
  /\ phase s' = LoadedPlaying
  /\ toasts (output s') = toasts (output playingA) ++ [Toast "Error playing audio" "error"]
  /\ currentTrack s' = currentTrack playingA
  /\ queue s' = queue playingA
  /\ currentIndex s' = currentIndex playingA.
Proof. vm_compute. repeat split. Qed.

(** ** The track-changed notification *)



Lemma loadTrack_fields (track : Track.t) (queue0 : option (list Track.t))
    (startIndex : Z) (s : Player) :
  let s1 := loadTrack track queue0 startIndex s in
  currentTrack s1 = Some track
  /\ queue s1 = installed_queue track queue0
  /\ currentIndex s1 = installed_index queue0 startIndex
  /\ Audio.src (audio s1) = ("http://localhost:3000" ++ Track.url track)%string
  /\ Audio.currentTime (audio s1) = Num 0
  /\ pending s1 = pending s ++ [(nextRequest s, PlayInLoadTrack)]
  /\ nextRequest s1 = S (nextRequest s)
  /\ output s1 = output s
  /\ isPlaying s1 = isPlaying s.
Proof. destruct queue0; repeat split. Qed.

(** C2, refuted as stated: when [loadTrack] has made its playback request
    and the request is still pending, no track-changed event has been
    dispatched. *)
Lemma loadTrack_no_event_while_pending :
  let s1 := loadTrack trackA None 0 player0 in
  pending s1 = [(O, PlayInLoadTrack)]
  /\ currentTrack s1 = Some trackA
  /\ ~ In (TrackChanged (Some trackA)) (output s1).
Proof.
  vm_compute. repeat split. intros [].
Qed.








(** ** Moving through the queue *)

Lemma queue_at_in_range (q : list Track.t) (i : Z) :
  0 <= i < Z.of_nat (List.length q) -> exists track, queue_at q i = Some track.
Proof.
  intros H. unfold queue_at.
  destruct (i <? 0) eqn:E; [apply Z.ltb_lt in E; lia |].
  destruct (nth_error q (Z.to_nat i)) as [t |] eqn:N; [eauto |].
  apply nth_error_None in N. lia.
Qed.

Lemma loadCurrent_fields (s : Player) :
  queue (loadCurrent s) = queue s
  /\ currentIndex (loadCurrent s) = currentIndex s
  /\ currentTrack (loadCurrent s) = queue_at (queue s) (currentIndex s)
  /\ isShuffled (loadCurrent s) = isShuffled s
  /\ repeatMode (loadCurrent s) = repeatMode s
  /\ volume (loadCurrent s) = volume s
  /\ Audio.volume (audio (loadCurrent s)) = Audio.volume (audio s)
  /\ (forall track, queue_at (queue s) (currentIndex s) = Some track ->
        Audio.src (audio (loadCurrent s))
        = ("http://localhost:3000" ++ Track.url track)%string
        /\ Audio.currentTime (audio (loadCurrent s)) = Num 0).
Proof.
  unfold loadCurrent.
  destruct (queue_at (queue s) (currentIndex s)) as [t |]; simpl;
    repeat split; intros; try discriminate;
    try match goal with H : Some _ = Some _ |- _ => inversion H; subst end;
    reflexivity.
Qed.

Lemma queue_length_pos (s : Player) :
  (queue_length s =? 0) = false <-> queue s <> [].
Proof.
  unfold queue_length. rewrite Z.eqb_neq.
  destruct (queue s); simpl; split; intros H; try congruence; lia.
Qed.

Lemma playNext_sequential (rnd : Q) (s : Player) :
  0 <= currentIndex s < queue_length s -> isShuffled s = false ->
  currentIndex (playNext rnd s) = (currentIndex s + 1) mod queue_length s
  /\ queue (playNext rnd s) = queue s
  /\ isShuffled (playNext rnd s) = false
  /\ currentTrack (playNext rnd s)
     = queue_at (queue s) ((currentIndex s + 1) mod queue_length s).
Proof.
  intros Hi Hs. unfold playNext.
  destruct (queue_length s =? 0) eqn:E; [apply Z.eqb_eq in E; lia |].
  rewrite Hs.
  rewrite Z.rem_mod_nonneg by lia.
  destruct (loadCurrent_fields
              (set_currentIndex ((currentIndex s + 1) mod queue_length s) s))
    as (L1 & L2 & L3 & L4 & _).
  rewrite L1, L2, L3, L4. simpl. auto.
Qed.

Lemma next_or_settled_run (es : list Event) :
  forallb next_or_settled es = true ->
  forall s : Player,
    0 <= currentIndex s < queue_length s -> isShuffled s = false ->
    currentIndex (run es s)
    = (currentIndex s + Z.of_nat (count_next es)) mod queue_length s
    /\ queue (run es s) = queue s.
Proof.
  induction es as [| e es IH]; intros Hall s Hi Hs.
  - simpl. rewrite Z.add_0_r, Z.mod_small by lia. auto.
  - simpl in Hall. apply andb_true_iff in Hall. destruct Hall as [He Hall].
    specialize (IH Hall). unfold run in *. simpl fold_left.
    destruct e; try discriminate He.
    + destruct (playNext_sequential rnd s Hi Hs) as (P1 & P2 & P3 & _).
      assert (Hlen : queue_length (playNext rnd s) = queue_length s)
        by (unfold queue_length; rewrite P2; reflexivity).
      destruct (IH (handle (ClickNext rnd) s)) as [I1 I2]; simpl handle.
      * rewrite Hlen, P1. apply Z.mod_pos_bound. lia.
      * exact P3.
      * simpl handle in I1, I2. rewrite I1, I2, P1, P2, Hlen. split; auto.
        unfold count_next. simpl.
        rewrite Zpos_P_of_succ_nat, Z.add_mod_idemp_l by lia.
        f_equal. lia.
    + destruct (settle_frame id o s) as (_ & F2 & F3 & _ & _ & F6 & _).
      assert (Hlen : queue_length (settle id o s) = queue_length s)
        by (unfold queue_length; rewrite F2; reflexivity).
      destruct (IH (handle (PlaySettled id o) s)) as [I1 I2]; simpl handle.
      * rewrite Hlen, F3. exact Hi.
      * rewrite F6. exact Hs.
      * simpl handle in I1, I2. rewrite I1, I2, F2, F3, Hlen. auto.
Qed.

(** C3. With shuffle off and the index inside a queue of length n,
    [playNext()] moves the index to (index + 1) mod n, loads the queue entry
    there, and leaves the queue as it was; any run of next commands, with the
    results of their playback requests arriving in between, leaves the index
    at (index + number of commands) mod n; and on an empty queue
    [playNext()] changes nothing. *)
Theorem playNext_cyclic (rnd : Q) (s : Player)
    (Hi : 0 <= currentIndex s < queue_length s)
    (Hs : isShuffled s = false) :
  let s' := playNext rnd s in
  currentIndex s' = (currentIndex s + 1) mod queue_length s
  /\ queue s' = queue s
  /\ (exists track,
        queue_at (queue s) (currentIndex s') = Some track
        /\ currentTrack s' = Some track
        /\ Audio.src (audio s')
           = ("http://localhost:3000" ++ Track.url track)%string)
  /\ (forall es, forallb next_or_settled es = true ->
        currentIndex (run es s)
        = (currentIndex s + Z.of_nat (count_next es)) mod queue_length s
        /\ queue (run es s) = queue s)
  /\ (forall r s0, queue s0 = [] -> playNext r s0 = s0).
Proof.
  cbv zeta.
  destruct (playNext_sequential rnd s Hi Hs) as (P1 & P2 & _ & P4).
  split; [exact P1 |]. split; [exact P2 |]. split; [| split].
  - assert (Hr : 0 <= (currentIndex s + 1) mod queue_length s
                 < Z.of_nat (List.length (queue s)))
      by (apply Z.mod_pos_bound; unfold queue_length in *; lia).
    destruct (queue_at_in_range _ _ Hr) as [track Ht].
    exists track. rewrite P1, P4. repeat split; try exact Ht.
    unfold playNext.
    destruct (queue_length s =? 0) eqn:E; [apply Z.eqb_eq in E; lia |].
    rewrite Hs, Z.rem_mod_nonneg by lia.
    apply (loadCurrent_fields
             (set_currentIndex ((currentIndex s + 1) mod queue_length s) s)).
    exact Ht.
  - intros es Hes. apply next_or_settled_run; assumption.
  - intros r s0 H0. unfold playNext, queue_length. rewrite H0. reflexivity.
Qed.

Lemma playNext_cyclic_witness :
  currentIndex (playNext 0 (loadTrack trackC (Some [trackA; trackB; trackC]) 2 player0))
  = 0.
Proof.
  refine (eq_trans
            (proj1 (playNext_cyclic 0
                      (loadTrack trackC (Some [trackA; trackB; trackC]) 2 player0)
                      _ _)) _).
  - unfold queue_length. simpl. lia.
  - reflexivity.
  - reflexivity.
Defined.

Lemma previous_index (i n : Z) :
  0 < n -> i = -1 \/ 0 <= i < n ->
  Z.rem (i - 1 + n) n = (i - 1 + n) mod n /\ 0 <= Z.rem (i - 1 + n) n < n.
Proof.
  intros Hn [Hi | Hi].
  - subst i. destruct (Z.eq_dec n 1) as [-> | Hne].
    + change (Z.rem (-1 - 1 + 1) 1) with 0. change ((-1 - 1 + 1) mod 1) with 0.
      lia.
    + rewrite Z.rem_mod_nonneg by lia.
      split; [reflexivity | apply Z.mod_pos_bound; lia].
  - rewrite Z.rem_mod_nonneg by lia.
    split; [reflexivity | apply Z.mod_pos_bound; lia].
Qed.

(** C4. On a non-empty queue, [playPrevious()] with more than 3 seconds
    elapsed sets the position to 0 and changes nothing else; with at most 3
    seconds elapsed it moves the index to (index - 1 + n) mod n and loads the
    queue entry there, the queue staying as it was; on an empty queue it
    changes nothing. *)
Theorem playPrevious_restart_or_back (s : Player) (t : Q)
    (Hq : queue s <> [])
    (Hi : index_ok s)
    (Ht : Audio.currentTime (audio s) = Num t) :
  let s' := playPrevious s in
  ((3 < t)%Q ->
     s' = set_audio (Audio.set_currentTime (Num 0) (audio s)) s
     /\ Audio.currentTime (audio s') = Num 0
     /\ currentIndex s' = currentIndex s
     /\ currentTrack s' = currentTrack s
     /\ queue s' = queue s)
  /\ ((t <= 3)%Q ->
        currentIndex s'
        = (currentIndex s - 1 + queue_length s) mod queue_length s
        /\ queue s' = queue s
        /\ exists track,
             queue_at (queue s) (currentIndex s') = Some track
             /\ currentTrack s' = Some track
             /\ Audio.src (audio s')
                = ("http://localhost:3000" ++ Track.url track)%string
             /\ Audio.currentTime (audio s') = Num 0)
  /\ (forall s0, queue s0 = [] -> playPrevious s0 = s0).
Proof.
  cbv zeta.
  assert (Hlen : (queue_length s =? 0) = false) by (apply queue_length_pos, Hq).
  assert (Hpos : 0 < queue_length s)
    by (apply Z.eqb_neq in Hlen; unfold queue_length in *; lia).
  split; [| split].
  - intros Hgt. unfold playPrevious. rewrite Hlen, Ht.
    unfold gt, Qltb.
    destruct (Qle_bool t 3) eqn:E.
    + apply Qle_bool_iff in E. exfalso. apply (Qlt_not_le _ _ Hgt E).
    + simpl. repeat split.
  - intros Hle. unfold playPrevious. rewrite Hlen, Ht.
    unfold gt, Qltb. apply Qle_bool_iff in Hle. rewrite Hle. simpl negb. cbv iota.
    destruct (previous_index (currentIndex s) (queue_length s) Hpos Hi)
      as [Hrem Hrange].
    set (j := Z.rem (currentIndex s - 1 + queue_length s) (queue_length s)) in *.
    destruct (loadCurrent_fields (set_currentIndex j s))
      as (L1 & L2 & L3 & _ & _ & _ & _ & L8).
    simpl in L1, L2, L3, L8.
    rewrite L1, L2, L3. split; [exact Hrem |]. split; [reflexivity |].
    destruct (queue_at_in_range (queue s) j Hrange) as [track Htr].
    exists track. split; [exact Htr |]. split; [exact Htr |].
    apply L8. exact Htr.
  - intros s0 H0. unfold playPrevious, queue_length. rewrite H0. reflexivity.
Qed.

Lemma playPrevious_restart_or_back_witness :
  currentIndex
    (playPrevious (loadTrack trackA (Some [trackA; trackB; trackC]) 0 player0))
  = 2.
Proof.
  assert (Hq : queue (loadTrack trackA (Some [trackA; trackB; trackC]) 0 player0)
               <> []) by discriminate.
  assert (Hi : index_ok
                 (loadTrack trackA (Some [trackA; trackB; trackC]) 0 player0))
    by (right; unfold queue_length; simpl; lia).
  destruct (playPrevious_restart_or_back
              (loadTrack trackA (Some [trackA; trackB; trackC]) 0 player0)
              0 Hq Hi eq_refl) as (_ & Hback & _).
  refine (eq_trans (proj1 (Hback _)) _).
  - unfold Qle. simpl. lia.
  - reflexivity.
Defined.

(** ** The end of a track *)

(** C5. When a track ends: with repeat one the position is set to 0 and
    [play()] is called, and the index is not changed, whatever the result of
    the request; with repeat all, or with the index before the last position,
    [playNext()] is called; with repeat off at or past the last position the
    controller pauses at position 0 and makes no playback request, so the
    index does not advance. *)
Theorem handleTrackEnd_policy (rnd : Q) (s : Player)
    (Hloaded : currentTrack s <> None) :
  let s' := handleTrackEnd rnd s in
  (repeatMode s = RepeatOne ->
     s' = play (set_audio (Audio.set_currentTime (Num 0) (audio s)) s)
     /\ Audio.currentTime (audio s') = Num 0
     /\ currentIndex s' = currentIndex s
     /\ forall id o, currentIndex (settle id o s') = currentIndex s)
  /\ (repeatMode s <> RepeatOne ->
      repeatMode s = RepeatAll \/ currentIndex s < queue_length s - 1 ->
      s' = playNext rnd s)
  /\ (repeatMode s = RepeatOff ->
      queue_length s - 1 <= currentIndex s ->
      s' = set_audio (Audio.set_currentTime (Num 0) (audio (pause s))) (pause s)
      /\ isPlaying s' = false
      /\ Audio.currentTime (audio s') = Num 0
      /\ currentIndex s' = currentIndex s
      /\ currentTrack s' = currentTrack s
      /\ queue s' = queue s
      /\ pending s' = pending s).
Proof.
  cbv zeta. unfold handleTrackEnd. split; [| split].
  - intros Hm. rewrite Hm. simpl. repeat split.
    intros id o.
    match goal with
    | |- currentIndex (settle id o ?x) = _ =>
        destruct (settle_frame id o x) as (_ & _ & F & _)
    end.
    rewrite F. reflexivity.
  - intros Hne [Hall | Hlt].
    + rewrite Hall. reflexivity.
    + apply Z.ltb_lt in Hlt. rewrite Hlt, orb_true_r.
      destruct (repeatMode s); try reflexivity. congruence.
  - intros Hoff Hlast. rewrite Hoff. simpl is_mode. cbv iota.
    apply Z.ltb_ge in Hlast. rewrite Hlast. simpl. repeat split.
Qed.

Lemma handleTrackEnd_policy_witness :
  isPlaying (handleTrackEnd 0 playingA) = true
  /\ currentIndex (handleTrackEnd 0 playingA) = 1.
Proof.
  assert (Hl : currentTrack playingA <> None) by discriminate.
  destruct (handleTrackEnd_policy 0 playingA Hl) as (_ & Hnext & _).
  rewrite Hnext.
  - split; reflexivity.
  - discriminate.
  - right. unfold queue_length. simpl. lia.
Defined.

(** ** The index stays inside the queue *)

Lemma index_ok_same (s s' : Player) :
  same_position s s' -> index_ok s -> index_ok s'.
Proof.
  intros [Hi Hq]. unfold index_ok, queue_length. rewrite Hi, Hq. auto.
Qed.

Lemma togglePlayPause_frame (s : Player) :
  same_position s (togglePlayPause s) /\ same_volumes s (togglePlayPause s).
Proof. unfold togglePlayPause. by_cases. Qed.

Lemma toggleShuffle_frame (s : Player) :
  same_position s (toggleShuffle s) /\ same_volumes s (toggleShuffle s).
Proof. repeat split. Qed.

Lemma cycleRepeatMode_frame (s : Player) :
  same_position s (cycleRepeatMode s) /\ same_volumes s (cycleRepeatMode s).
Proof. repeat split. Qed.

Lemma seek_frame (p : number) (s : Player) :
  same_position s (seek p s) /\ same_volumes s (seek p s).
Proof. unfold seek. by_cases. Qed.

Lemma handleAudioError_frame (s : Player) :
  same_position s (handleAudioError s) /\ same_volumes s (handleAudioError s).
Proof. repeat split. Qed.

Lemma settle_same (id : nat) (o : Outcome) (s : Player) :
  same_position s (settle id o s) /\ same_volumes s (settle id o s).
Proof.
  destruct (settle_frame id o s) as (_ & F2 & F3 & F4 & F5 & _).
  unfold same_position, same_volumes. rewrite F2, F3, F4, F5. auto.
Qed.

Lemma setVolume_position (v : number) (s : Player) :
  same_position s (setVolume v s).
Proof. split; reflexivity. Qed.

Lemma toggleMute_position (s : Player) : same_position s (toggleMute s).
Proof. unfold toggleMute. by_cases. Qed.

Lemma loadTrack_index_ok (track : Track.t) (queue0 : option (list Track.t))
    (startIndex : Z) (s : Player) :
  event_ok (LoadTrack track queue0 startIndex) ->
  index_ok (loadTrack track queue0 startIndex s).
Proof.
  intros H. right. destruct queue0 as [q |]; unfold queue_length; simpl in *; lia.
Qed.

Lemma random_index (rnd : Q) (n : Z) :
  (0 <= rnd < 1)%Q -> 0 < n -> 0 <= Qfloor (rnd * inject_Z n) < n.
Proof.
  intros [H0 H1] Hn. destruct rnd as [a b].
  unfold Qle, Qlt, Qmult, inject_Z, Qfloor in *. simpl in *.
  rewrite Pos.mul_1_r. split.
  - apply Z.div_pos; nia.
  - apply Z.div_lt_upper_bound; nia.
Qed.

Lemma loadCurrent_position (s : Player) : same_position s (loadCurrent s).
Proof.
  destruct (loadCurrent_fields s) as (L1 & L2 & _). split; assumption.
Qed.

Lemma playNext_index_ok (rnd : Q) (s : Player) :
  (0 <= rnd < 1)%Q -> index_ok s -> index_ok (playNext rnd s).
Proof.
  intros Hr Hi. unfold playNext.
  destruct (queue_length s =? 0) eqn:E; [exact Hi |].
  assert (Hn : 0 < queue_length s)
    by (apply Z.eqb_neq in E; unfold queue_length in *; lia).
  apply (index_ok_same _ _ (loadCurrent_position _)).
  right. destruct (isShuffled s); unfold queue_length in *; simpl.
  - apply random_index; assumption.
  - destruct Hi as [Hi | Hi].
    + rewrite Hi. simpl. rewrite Z.rem_0_l by lia. lia.
    + rewrite Z.rem_mod_nonneg by lia. apply Z.mod_pos_bound. lia.
Qed.

Lemma playPrevious_index_ok (s : Player) :
  index_ok s -> index_ok (playPrevious s).
Proof.
  intros Hi. unfold playPrevious.
  destruct (queue_length s =? 0) eqn:E; [exact Hi |].
  assert (Hn : 0 < queue_length s)
    by (apply Z.eqb_neq in E; unfold queue_length in *; lia).
  destruct (gt (Audio.currentTime (audio s)) (Num 3)); [exact Hi |].
  apply (index_ok_same _ _ (loadCurrent_position _)).
  right. unfold queue_length in *. simpl.
  apply previous_index; assumption.
Qed.

Lemma handleTrackEnd_index_ok (rnd : Q) (s : Player) :
  (0 <= rnd < 1)%Q -> index_ok s -> index_ok (handleTrackEnd rnd s).
Proof.
  intros Hr Hi. unfold handleTrackEnd.
  destruct (is_mode (repeatMode s) RepeatOne); [exact Hi |].
  destruct (is_mode (repeatMode s) RepeatAll
            || (currentIndex s <? queue_length s - 1)).
  - apply playNext_index_ok; assumption.
  - exact Hi.
Qed.

Lemma handleKeyboard_index_ok (rnd : Q) (tagName key : string) (s : Player) :
  (0 <= rnd < 1)%Q -> index_ok s -> index_ok (handleKeyboard rnd tagName key s).
Proof.
  intros Hr Hi. unfold handleKeyboard.
  repeat match goal with
         | |- context [if ?b then _ else _] => destruct b
         end;
    first [ exact Hi
          | apply playNext_index_ok; assumption
          | apply playPrevious_index_ok; assumption
          | apply (index_ok_same s); [| exact Hi] ];
    first [ apply togglePlayPause_frame
          | apply toggleShuffle_frame
          | apply cycleRepeatMode_frame
          | apply toggleMute_position
          | split; reflexivity ].
Qed.

Lemma index_ok_step (e : Event) (s : Player) :
  event_ok e -> index_ok s -> index_ok (handle e s).
Proof.
  intros He Hi. destruct e; simpl handle.
  - apply loadTrack_index_ok, He.
  - apply (index_ok_same s); [apply togglePlayPause_frame | exact Hi].
  - apply playPrevious_index_ok, Hi.
  - apply playNext_index_ok; assumption.
  - apply (index_ok_same s); [apply toggleShuffle_frame | exact Hi].
  - apply (index_ok_same s); [apply cycleRepeatMode_frame | exact Hi].
  - apply (index_ok_same s); [apply toggleMute_position | exact Hi].
  - apply (index_ok_same s); [apply setVolume_position | exact Hi].
  - apply (index_ok_same s); [apply seek_frame | exact Hi].
  - exact Hi.
  - exact Hi.
  - apply handleTrackEnd_index_ok; assumption.
  - apply (index_ok_same s); [apply handleAudioError_frame | exact Hi].
  - apply handleKeyboard_index_ok; assumption.
  - apply (index_ok_same s); [apply settle_same | exact Hi].
Qed.

(** C7. The index is -1 or a position inside the queue: in the state the
    constructor builds, after every operation started from a state where it
    holds ([loadTrack] being given a start index inside the queue it is
    given), and so in every state a run of such operations reaches. *)
Theorem index_invariant (es : list Event) (a : Audio.t) (el : Elements.t)
    (Hes : Forall event_ok es) :
  index_ok (constructor a el)
  /\ index_ok (run es (constructor a el))
  /\ (forall e s, event_ok e -> index_ok s -> index_ok (handle e s))
  /\ (forall track q startIndex s,
        0 <= startIndex < Z.of_nat (List.length q) ->
        index_ok (loadTrack track (Some q) startIndex s))
  /\ (forall track s, index_ok (loadTrack track None 0 s))
  /\ (forall rnd s, (0 <= rnd < 1)%Q -> index_ok s ->
        index_ok (playNext rnd s) /\ index_ok (handleTrackEnd rnd s))
  /\ (forall s, index_ok s -> index_ok (playPrevious s)).
Proof.
  assert (H0 : index_ok (constructor a el)) by (left; reflexivity).
  split; [exact H0 |]. split.
  - revert H0. generalize (constructor a el) as s.
    induction Hes as [| e es He Hes IH]; intros s Hs; [exact Hs |].
    apply (IH (handle e s)). apply index_ok_step; assumption.
  - split; [exact index_ok_step |]. split; [| split; [| split]].
    + intros track q i s Hi. apply loadTrack_index_ok. exact Hi.
    + intros track s. apply loadTrack_index_ok. exact I.
    + intros rnd s Hr Hi. split.
      * apply playNext_index_ok; assumption.
      * apply handleTrackEnd_index_ok; assumption.
    + exact playPrevious_index_ok.
Qed.

Lemma index_invariant_witness :
  index_ok
    (run [LoadTrack trackB (Some [trackA; trackB]) 1; ClickNext (1 # 3);
          PlaySettled 0 Rejected; ClickShuffle; AudioEnded (2 # 3); ClickPrev]
       player0).
Proof.
  refine (proj1 (proj2 (index_invariant
                          [LoadTrack trackB (Some [trackA; trackB]) 1;
                           ClickNext (1 # 3); PlaySettled 0 Rejected;
                           ClickShuffle; AudioEnded (2 # 3); ClickPrev]
                          audio0 elements0 _))).
  repeat constructor; simpl; unfold Qle, Qlt; simpl; lia.
Defined.

(** ** The output volume and the stored volume *)

Lemma volume_ok_same (s s' : Player) :
  same_volumes s s' -> volume_ok s -> volume_ok s'.
Proof. intros [Hv Ha]. unfold volume_ok. rewrite Hv, Ha. auto. Qed.

Lemma unmuted_same (s s' : Player) :
  same_volumes s s' -> unmuted s -> unmuted s'.
Proof. intros [Hv Ha]. unfold unmuted. rewrite Hv, Ha. auto. Qed.

Lemma loadTrack_volumes (track : Track.t) (queue0 : option (list Track.t))
    (startIndex : Z) (s : Player) :
  same_volumes s (loadTrack track queue0 startIndex s).
Proof. destruct queue0; split; reflexivity. Qed.

Lemma loadCurrent_volumes (s : Player) : same_volumes s (loadCurrent s).
Proof.
  destruct (loadCurrent_fields s) as (_ & _ & _ & _ & _ & L6 & L7 & _).
  split; assumption.
Qed.

Lemma playNext_volumes (rnd : Q) (s : Player) : same_volumes s (playNext rnd s).
Proof.
  unfold playNext. destruct (queue_length s =? 0); [split; reflexivity |].
  destruct (isShuffled s);
    match goal with
    | |- same_volumes _ (loadCurrent ?x) =>
        destruct (loadCurrent_volumes x) as [Hv Ha]
    end; split; assumption.
Qed.

Lemma playPrevious_volumes (s : Player) : same_volumes s (playPrevious s).
Proof.
  unfold playPrevious. destruct (queue_length s =? 0); [split; reflexivity |].
  destruct (gt (Audio.currentTime (audio s)) (Num 3)); [split; reflexivity |].
  match goal with
  | |- same_volumes _ (loadCurrent ?x) =>
      destruct (loadCurrent_volumes x) as [Hv Ha]
  end; split; assumption.
Qed.

Lemma handleTrackEnd_volumes (rnd : Q) (s : Player) :
  same_volumes s (handleTrackEnd rnd s).
Proof.
  unfold handleTrackEnd.
  destruct (is_mode (repeatMode s) RepeatOne); [split; reflexivity |].
  destruct (is_mode (repeatMode s) RepeatAll
            || (currentIndex s <? queue_length s - 1)).
  - apply playNext_volumes.
  - split; reflexivity.
Qed.

Lemma setVolume_unmuted (v : number) (s : Player) : unmuted (setVolume v s).
Proof. reflexivity. Qed.

Lemma toggleMute_volume_ok (s : Player) : volume_ok (toggleMute s).
Proof.
  unfold toggleMute, volume_ok.
  destruct (gt (Audio.volume (audio s)) (Num 0)); simpl; auto.
Qed.

Lemma toggleMute_mutes (s : Player) :
  gt (Audio.volume (audio s)) (Num 0) = true ->
  Audio.volume (audio (toggleMute s)) = Num 0
  /\ volume (toggleMute s) = volume s.
Proof. intros H. unfold toggleMute. rewrite H. split; reflexivity. Qed.

Lemma toggleMute_restores (s : Player) :
  gt (Audio.volume (audio s)) (Num 0) = false ->
  Audio.volume (audio (toggleMute s)) = volume s
  /\ volume (toggleMute s) = volume s.
Proof. intros H. unfold toggleMute. rewrite H. split; reflexivity. Qed.

Lemma handleKeyboard_volume_ok (rnd : Q) (tagName key : string) (s : Player) :
  volume_ok s -> volume_ok (handleKeyboard rnd tagName key s).
Proof.
  intros H. unfold handleKeyboard.
  repeat match goal with
         | |- context [if ?b then _ else _] => destruct b
         end;
    first [ exact H
          | apply toggleMute_volume_ok
          | right; reflexivity
          | apply (volume_ok_same s); [| exact H] ];
    first [ apply togglePlayPause_frame
          | apply toggleShuffle_frame
          | apply cycleRepeatMode_frame
          | apply playNext_volumes
          | apply playPrevious_volumes
          | split; reflexivity ].
Qed.

Lemma handleKeyboard_unmuted (rnd : Q) (tagName key : string) (s : Player) :
  calls_toggleMute (KeyDown rnd tagName key) = false ->
  unmuted s -> unmuted (handleKeyboard rnd tagName key s).
Proof.
  intros Hm H. unfold handleKeyboard. simpl in Hm. revert Hm.
  repeat match goal with
         | |- context [if ?b then _ else _] => destruct b
         end;
    intros Hm; try discriminate Hm;
    first [ exact H
          | reflexivity
          | apply (unmuted_same s); [| exact H] ];
    first [ apply togglePlayPause_frame
          | apply toggleShuffle_frame
          | apply cycleRepeatMode_frame
          | apply playNext_volumes
          | apply playPrevious_volumes
          | split; reflexivity ].
Qed.

Lemma volume_ok_step (e : Event) (s : Player) :
  volume_ok s -> volume_ok (handle e s).
Proof.
  intros H. destruct e; simpl handle;
    first [ exact H
          | apply toggleMute_volume_ok
          | apply handleKeyboard_volume_ok; exact H
          | right; apply setVolume_unmuted
          | apply (volume_ok_same s); [| exact H] ];
    first [ apply loadTrack_volumes
          | apply togglePlayPause_frame
          | apply playPrevious_volumes
          | apply playNext_volumes
          | apply toggleShuffle_frame
          | apply cycleRepeatMode_frame
          | apply seek_frame
          | apply handleTrackEnd_volumes
          | apply handleAudioError_frame
          | apply settle_same
          | split; reflexivity ].
Qed.

Lemma unmuted_step (e : Event) (s : Player) :
  calls_toggleMute e = false -> unmuted s -> unmuted (handle e s).
Proof.
  intros Hm H. destruct e; simpl handle; try discriminate Hm;
    first [ exact H
          | apply handleKeyboard_unmuted; assumption
          | apply setVolume_unmuted
          | apply (unmuted_same s); [| exact H] ];
    first [ apply loadTrack_volumes
          | apply togglePlayPause_frame
          | apply playPrevious_volumes
          | apply playNext_volumes
          | apply toggleShuffle_frame
          | apply cycleRepeatMode_frame
          | apply seek_frame
          | apply handleTrackEnd_volumes
          | apply handleAudioError_frame
          | apply settle_same
          | split; reflexivity ].
Qed.

Lemma run_volume_ok (es : list Event) (s : Player) :
  volume_ok s -> volume_ok (run es s).
Proof.
  revert s. induction es as [| e es IH]; intros s H; [exact H |].
  apply (IH (handle e s)), volume_ok_step, H.
Qed.

(** C10. In every state reached from the constructor the output volume is 0
    or equal to the stored volume.  The constructor, [setVolume] and the
    up and down arrow keys leave the two equal; every event that does not
    call [toggleMute] keeps them equal when they are; and [toggleMute], when
    the output volume is above 0, sets the output to 0 and leaves the stored
    volume as it was. *)
Theorem volume_output_zero_or_stored (es : list Event) (a : Audio.t)
    (el : Elements.t) :
  volume_ok (run es (constructor a el))
  /\ unmuted (constructor a el)
  /\ (forall v s, unmuted (setVolume v s))
  /\ (forall rnd s,
        unmuted (handleKeyboard rnd "BODY" "ArrowUp" s)
        /\ unmuted (handleKeyboard rnd "BODY" "ArrowDown" s))
  /\ (forall e s, calls_toggleMute e = false -> unmuted s ->
        unmuted (handle e s))
  /\ (forall e s, volume_ok s -> volume_ok (handle e s))
  /\ (forall s, gt (Audio.volume (audio s)) (Num 0) = true ->
        Audio.volume (audio (toggleMute s)) = Num 0
        /\ volume (toggleMute s) = volume s).
Proof.
  split; [apply run_volume_ok; right; reflexivity |].
  split; [reflexivity |].
  split; [exact setVolume_unmuted |].
  split; [intros rnd s; split; reflexivity |].
  split; [exact unmuted_step |].
  split; [exact volume_ok_step |].
  exact toggleMute_mutes.
Qed.

Lemma volume_output_zero_or_stored_witness :
  Audio.volume (audio (toggleMute player0)) = Num 0
  /\ volume (toggleMute player0) = Num (8 # 10).
Proof.
  destruct (volume_output_zero_or_stored [] audio0 elements0)
    as (_ & _ & _ & _ & _ & _ & Hmute).
  apply (Hmute player0). reflexivity.
Defined.

(** ** Muting and unmuting *)

(** C6, refuted as stated: after [setVolume(0.5)] and one [toggleMute()] the
    controller is muted with 0.5 stored, and two more [toggleMute()] leave
    the output at 0, not at 0.5.  A [setVolume(0.3)] made while muted sets the
    output itself, so the [toggleMute()] after it mutes, and two more
    [toggleMute()] from there leave the output at 0, not at 0.3. *)
Lemma toggleMute_twice_from_muted :
  volume mutedHalf = Num (1 # 2)
  /\ Audio.volume (audio mutedHalf) = Num 0
  /\ Audio.volume (audio (toggleMute (toggleMute mutedHalf))) = Num 0
  /\ Audio.volume (audio (toggleMute (toggleMute mutedHalf))) <> volume mutedHalf
  /\ (let s := toggleMute (setVolume (Num (3 # 10)) mutedHalf) in
      volume s = Num (3 # 10)
      /\ Audio.volume (audio s) = Num 0
      /\ Audio.volume (audio (toggleMute (toggleMute s))) = Num 0).
Proof.
  vm_compute. repeat split. discriminate.
Qed.

(** C6, amended: from a state whose output volume equals the stored volume
    v, as it does after every [setVolume] call, also one made after an
    earlier mute, two [toggleMute()] in succession leave the output volume
    at v and the stored volume at v; and the first, when the output volume is
    above 0, sets the output to 0 without changing the stored volume. *)
Theorem toggleMute_twice (s : Player) (Hun : unmuted s) :
  Audio.volume (audio (toggleMute (toggleMute s))) = volume s
  /\ volume (toggleMute (toggleMute s)) = volume s
  /\ (gt (Audio.volume (audio s)) (Num 0) = true ->
        Audio.volume (audio (toggleMute s)) = Num 0
        /\ volume (toggleMute s) = volume s)
  /\ (forall v s0,
        unmuted (setVolume v s0)
        /\ volume (setVolume v s0) = Math_max (Num 0) (Math_min (Num 1) v))
  /\ (forall v s0,
        Audio.volume
          (audio (toggleMute (toggleMute (setVolume v (toggleMute s0)))))
        = Math_max (Num 0) (Math_min (Num 1) v)).
Proof.
  assert (Htwice : forall s1, unmuted s1 ->
            Audio.volume (audio (toggleMute (toggleMute s1))) = volume s1
            /\ volume (toggleMute (toggleMute s1)) = volume s1).
  { intros s1 H1.
    destruct (gt (Audio.volume (audio s1)) (Num 0)) eqn:E.
    - destruct (toggleMute_mutes s1 E) as [Ha Hv].
      assert (E' : gt (Audio.volume (audio (toggleMute s1))) (Num 0) = false)
        by (rewrite Ha; reflexivity).
      destruct (toggleMute_restores _ E') as [Ha' Hv'].
      rewrite Ha', Hv', Hv. auto.
    - destruct (toggleMute_restores s1 E) as [Ha Hv].
      assert (E' : gt (Audio.volume (audio (toggleMute s1))) (Num 0) = false)
        by (rewrite Ha, <- H1; exact E).
      destruct (toggleMute_restores _ E') as [Ha' Hv'].
      rewrite Ha', Hv', Hv. auto. }
  destruct (Htwice s Hun) as [H1 H2].
  split; [exact H1 |]. split; [exact H2 |].
  split; [apply toggleMute_mutes |].
  split; [intros v s0; split; reflexivity |].
  intros v s0.
  destruct (Htwice (setVolume v (toggleMute s0)) (setVolume_unmuted _ _))
    as [H _].
  rewrite H. reflexivity.
Qed.

Lemma toggleMute_twice_witness :
  Audio.volume
    (audio (toggleMute (toggleMute (setVolume (Num (3 # 10)) mutedHalf))))
  = Num (3 # 10).
Proof.
  refine (eq_trans
            (proj1 (toggleMute_twice (setVolume (Num (3 # 10)) mutedHalf) _)) _).
  - reflexivity.
  - reflexivity.
Defined.

(** * Further properties of the controller *)

(** ** Runs of events *)

Lemma run_app (es es' : list Event) (s : Player) :
  run (es ++ es') s = run es' (run es s).
Proof. unfold run. apply fold_left_app. Qed.

Lemma run_invariant (P : Player -> Prop) (Q : Event -> Prop) :
  (forall e s, Q e -> P s -> P (handle e s)) ->
  forall es s, Forall Q es -> P s -> P (run es s).
Proof.
  intros Hstep es. induction es as [| e es IH]; intros s Hes Hs; [exact Hs |].
  inversion Hes; subst. apply (IH (handle e s)); auto.
Qed.

(** ** Repeat and shuffle modes *)

Lemma cycleRepeatMode_record ct q ci ip ish rm v a el p n out :
  cycleRepeatMode (mkPlayer ct q ci ip ish rm v a el p n out)
  = let next :=
      match rm with
      | RepeatOff => RepeatAll
      | RepeatAll => RepeatOne
      | RepeatOne => RepeatOff
      end in
    mkPlayer ct q ci ip ish next v a el p n
      (out ++ [Toast ("Repeat: " ++ repeat_title next) "info"]).
Proof. reflexivity. Qed.

(** X1. [cycleRepeatMode()] steps through off, all, one and back to off: the
    three modes met from any start are pairwise different, three calls give
    the starting mode again, and the calls touch neither the queue, the
    index, the track, the playing flag nor the pending requests; each call
    shows one toast naming the new mode. *)
Theorem cycleRepeatMode_order_three (s : Player) :
  let s1 := cycleRepeatMode s in
  let s2 := cycleRepeatMode s1 in
  let s3 := cycleRepeatMode s2 in
  repeatMode s3 = repeatMode s
  /\ repeatMode s1 <> repeatMode s
  /\ repeatMode s2 <> repeatMode s
  /\ repeatMode s2 <> repeatMode s1
  /\ (repeatMode s = RepeatOff -> repeatMode s1 = RepeatAll /\ repeatMode s2 = RepeatOne)
  /\ set_repeatMode (repeatMode s) s3
     = mkPlayer (currentTrack s) (queue s) (currentIndex s) (isPlaying s)
         (isShuffled s) (repeatMode s) (volume s) (audio s) (elements s)
         (pending s) (nextRequest s)
         (output s ++ [Toast ("Repeat: " ++ repeat_title (repeatMode s1)) "info";
                       Toast ("Repeat: " ++ repeat_title (repeatMode s2)) "info";
                       Toast ("Repeat: " ++ repeat_title (repeatMode s)) "info"]).
Proof.
  destruct s as [ct q ci ip ish rm v a el p n out].
  cbv zeta. rewrite !cycleRepeatMode_record.
  cbn [repeatMode set_repeatMode currentTrack queue currentIndex isPlaying
       isShuffled volume audio elements pending nextRequest output].
  rewrite <- !app_assoc. cbn [app].
  destruct rm; repeat split; try discriminate; auto.
Qed.

Lemma cycleRepeatMode_order_three_witness :
  repeatMode (cycleRepeatMode player0) = RepeatAll
  /\ repeatMode (cycleRepeatMode (cycleRepeatMode player0)) = RepeatOne.
Proof.
  destruct (cycleRepeatMode_order_three player0) as (_ & _ & _ & _ & H & _).
  apply H. reflexivity.
Defined.



(** ** The volume range and the volume icon *)

Lemma Qle_bool_false (x y : Q) : Qle_bool x y = false -> (y < x)%Q.
Proof.
  intros H. apply Qnot_le_lt. intros Hle.
  apply Qle_bool_iff in Hle. congruence.
Qed.

Lemma clamp_cases (q : Q) :
  let c := Math_max (Num 0) (Math_min (Num 1) (Num q)) in
  ((q < 0)%Q /\ c = Num 0)
  \/ ((0 <= q)%Q /\ (q < 1)%Q /\ c = Num q)
  \/ ((1 <= q)%Q /\ c = Num 1).
Proof.
  cbv zeta. unfold Math_min, Math_max.
  destruct (Qle_bool 1 q) eqn:E1.
  - right. right. apply Qle_bool_iff in E1. split; [exact E1 | reflexivity].
  - apply Qle_bool_false in E1.
    destruct (Qle_bool 0 q) eqn:E0.
    + right. left. apply Qle_bool_iff in E0. auto.
    + left. apply Qle_bool_false in E0. auto.
Qed.

Lemma clamp_within (q : Q) :
  within 0 1 (Math_max (Num 0) (Math_min (Num 1) (Num q))).
Proof.
  destruct (clamp_cases q) as [[H ->] | [(H0 & H1 & ->) | [H ->]]]; simpl.
  - split; [apply Qle_refl | discriminate].
  - split; [exact H0 | apply Qlt_le_weak, H1].
  - split; [discriminate | apply Qle_refl].
Qed.

(** X3. [setVolume(value)] stores and outputs the value clamped to [0, 1]:
    a finite value inside the range is kept as it is, a negative one becomes
    0, one from 1 upwards becomes 1, so the stored volume always lies in
    [0, 1] and the output equals it.  A [NaN] is not clamped: it is stored as
    it is. *)
Theorem setVolume_clamps (q : Q) (s : Player) :
  let s' := setVolume (Num q) s in
  within 0 1 (volume s')
  /\ Audio.volume (audio s') = volume s'
  /\ ((0 <= q)%Q -> (q < 1)%Q -> volume s' = Num q)
  /\ ((q < 0)%Q -> volume s' = Num 0)
  /\ ((1 <= q)%Q -> volume s' = Num 1)
  /\ volume (setVolume NaN s) = NaN.
Proof.
  cbv zeta. change (volume (setVolume (Num q) s))
    with (Math_max (Num 0) (Math_min (Num 1) (Num q))).
  split; [apply clamp_within |]. split; [reflexivity |].
  destruct (clamp_cases q) as [[H E] | [(H0 & H1 & E) | [H E]]];
    cbv zeta in E; rewrite E;
    (split; [| split; [| split; [| reflexivity]]]); intros;
    first [reflexivity | exfalso; lra].
Qed.

Lemma setVolume_clamps_witness :
  volume (setVolume (Num (3 # 2)) player0) = Num 1.
Proof.
  refine (proj1 (proj2 (proj2 (proj2 (proj2
            (setVolume_clamps (3 # 2) player0))))) _).
  unfold Qle. simpl. lia.
Defined.

Lemma updateVolumeIcon_tier (s : Player) (q : Q) :
  Audio.volume (audio s) = Num q ->
  Elements.volumeIcon (elements (updateVolumeIcon s)) = icon_tier q.
Proof.
  intros H. unfold updateVolumeIcon, icon_tier. rewrite H. simpl.
  destruct (Qeq_bool q 0); [reflexivity |].
  unfold lt, gt. destruct (Qltb q (1 # 2)); reflexivity.
Qed.

Lemma icon_tier_cases (q : Q) :
  ((q == 0)%Q -> icon_tier q = IconMuted)
  /\ ((0 < q)%Q -> (q < 1 # 2)%Q -> icon_tier q = IconLow)
  /\ ((1 # 2 <= q)%Q -> icon_tier q = IconHigh).
Proof.
  unfold icon_tier, Qltb. repeat split.
  - intros H. apply Qeq_bool_iff in H. rewrite H. reflexivity.
  - intros H0 H1. destruct (Qeq_bool q 0) eqn:E.
    + apply Qeq_bool_iff in E. exfalso. lra.
    + destruct (Qle_bool (1 # 2) q) eqn:E'; [| reflexivity].
      apply Qle_bool_iff in E'. exfalso. lra.
  - intros H. destruct (Qeq_bool q 0) eqn:E.
    + apply Qeq_bool_iff in E. exfalso. lra.
    + apply Qle_bool_iff in H. rewrite H. reflexivity.
Qed.

(** X4. The volume icon follows the output volume in three tiers.  After
    [setVolume(value)] it shows muted for a value of 0 or less, low for a
    value above 0 and below 0.5, and high from 0.5 upwards.  [toggleMute()]
    from an audible output shows muted, and from a silent output it shows the
    tier of the stored volume it restores. *)
Theorem volume_icon_tiers (q : Q) (s : Player) :
  let icon := Elements.volumeIcon (elements (setVolume (Num q) s)) in
  ((q <= 0)%Q -> icon = IconMuted)
  /\ ((0 < q)%Q -> (q < 1 # 2)%Q -> icon = IconLow)
  /\ ((1 # 2 <= q)%Q -> icon = IconHigh)
  /\ (forall s0, gt (Audio.volume (audio s0)) (Num 0) = true ->
        Elements.volumeIcon (elements (toggleMute s0)) = IconMuted)
  /\ (forall s0 v, gt (Audio.volume (audio s0)) (Num 0) = false ->
        volume s0 = Num v ->
        Elements.volumeIcon (elements (toggleMute s0)) = icon_tier v).
Proof.
  cbv zeta.
  assert (Hicon : forall c, Math_max (Num 0) (Math_min (Num 1) (Num q)) = Num c ->
            Elements.volumeIcon (elements (setVolume (Num q) s)) = icon_tier c).
  { intros c Hc. unfold setVolume. apply updateVolumeIcon_tier. exact Hc. }
  assert (Hmute : forall s0, gt (Audio.volume (audio s0)) (Num 0) = true ->
            Elements.volumeIcon (elements (toggleMute s0)) = IconMuted).
  { intros s0 Hg. unfold toggleMute. rewrite Hg. reflexivity. }
  assert (Hrestore : forall s0 v,
            gt (Audio.volume (audio s0)) (Num 0) = false ->
            volume s0 = Num v ->
            Elements.volumeIcon (elements (toggleMute s0)) = icon_tier v).
  { intros s0 v Hg Hv. unfold toggleMute. rewrite Hg.
    apply updateVolumeIcon_tier. simpl. exact Hv. }
  destruct (icon_tier_cases q) as (T0 & T1 & T2).
  destruct (clamp_cases q) as [[H E] | [(H0 & H1 & E) | [H E]]];
    cbv zeta in E; rewrite (Hicon _ E);
    (split; [| split; [| split; [| split; [exact Hmute | exact Hrestore]]]]);
    intros.
  - reflexivity.
  - exfalso. lra.
  - exfalso. lra.
  - apply T0. lra.
  - apply T1; assumption.
  - apply T2; assumption.
  - exfalso. lra.
  - exfalso. lra.
  - reflexivity.
Qed.

Lemma volume_icon_tiers_witness :
  Elements.volumeIcon (elements (setVolume (Num (3 # 10)) player0)) = IconLow.
Proof.
  refine (proj1 (proj2 (volume_icon_tiers (3 # 10) player0)) _ _).
  - reflexivity.
  - reflexivity.
Defined.

Lemma volume_range_same (s s' : Player) :
  same_volumes s s' -> volume_range s -> volume_range s'.
Proof. intros [Hv Ha]. unfold volume_range. rewrite Hv, Ha. auto. Qed.

Lemma setVolume_range (v : number) (s : Player) :
  v <> NaN -> volume_range (setVolume v s).
Proof.
  intros Hv. destruct v as [| q]; [congruence |].
  split; apply clamp_within.
Qed.

Lemma toggleMute_range (s : Player) :
  volume_range s -> volume_range (toggleMute s).
Proof.
  intros [Hv Ha]. unfold toggleMute, volume_range.
  destruct (gt (Audio.volume (audio s)) (Num 0)); simpl; split; auto.
  split; [apply Qle_refl | discriminate].
Qed.

Lemma output_volume_finite (s : Player) :
  volume_range s -> exists a, Audio.volume (audio s) = Num a.
Proof.
  intros [_ Ha]. revert Ha.
  destruct (Audio.volume (audio s)) as [| a]; [intros [] | eauto].
Qed.

Lemma arrow_volume_range (v : number) (s : Player) :
  v <> NaN ->
  volume_range
    (set_elements
       (Elements.set_volumeSlider
          (mul (Audio.volume (audio (setVolume v s))) (Num 100))
          (elements (setVolume v s)))
       (setVolume v s)).
Proof.
  intros Hv. apply (volume_range_same (setVolume v s)).
  - split; reflexivity.
  - apply setVolume_range, Hv.
Qed.

Lemma handleKeyboard_range (rnd : Q) (tagName key : string) (s : Player) :
  volume_range s -> volume_range (handleKeyboard rnd tagName key s).
Proof.
  intros H. destruct (output_volume_finite s H) as [a Ea].
  unfold handleKeyboard.
  repeat match goal with
         | |- context [if ?b then _ else _] => destruct b
         end;
    first [ exact H
          | apply toggleMute_range; exact H
          | apply arrow_volume_range; rewrite Ea;
            unfold Math_min, Math_max, add, sub;
            match goal with
            | |- context [if ?b then _ else _] => destruct b
            end; discriminate
          | apply (volume_range_same s); [| exact H] ];
    first [ apply togglePlayPause_frame
          | apply toggleShuffle_frame
          | apply cycleRepeatMode_frame
          | apply playNext_volumes
          | apply playPrevious_volumes
          | split; reflexivity ].
Qed.

Lemma volume_range_step (e : Event) (s : Player) :
  volume_range s -> volume_range (handle e s).
Proof.
  intros H. destruct e; simpl handle;
    first [ exact H
          | apply toggleMute_range; exact H
          | apply handleKeyboard_range; exact H
          | apply setVolume_range; discriminate
          | apply (volume_range_same s); [| exact H] ];
    first [ apply loadTrack_volumes
          | apply togglePlayPause_frame
          | apply playPrevious_volumes
          | apply playNext_volumes
          | apply toggleShuffle_frame
          | apply cycleRepeatMode_frame
          | apply seek_frame
          | apply handleTrackEnd_volumes
          | apply handleAudioError_frame
          | apply settle_same
          | split; reflexivity ].
Qed.

(** X5. In every state reached from the constructor, whatever the page and
    the events, the stored volume and the output volume are finite numbers
    between 0 and 1: the slider, the arrow keys and the mute button never
    take either of them out of the range. *)
Theorem volume_stays_in_range (es : list Event) (a : Audio.t) (el : Elements.t) :
  volume_range (reached_by es a el)
  /\ (forall rnd s, volume_range s ->
        volume_range (handleKeyboard rnd "BODY" "ArrowUp" s)
        /\ volume_range (handleKeyboard rnd "BODY" "ArrowDown" s)).
Proof.
  split.
  - unfold reached_by.
    apply (run_invariant volume_range (fun _ => True)).
    + intros e s _. apply volume_range_step.
    + apply Forall_forall. auto.
    + split; simpl; split; discriminate.
  - intros rnd s H. split; apply handleKeyboard_range; exact H.
Qed.

Lemma volume_stays_in_range_witness :
  volume_range (handleKeyboard 0 "BODY" "ArrowUp" player0).
Proof.
  destruct (volume_stays_in_range [] audio0 elements0) as [H0 Hk].
  exact (proj1 (Hk 0%Q player0 H0)).
Defined.

(** ** Seeking and the progress display *)

Lemma truthy_pos (d : Q) : (0 < d)%Q -> truthy (Num d) = true.
Proof.
  intros H. simpl. destruct (Qeq_bool d 0) eqn:E; [| reflexivity].
  apply Qeq_bool_iff in E. rewrite E in H. discriminate H.
Qed.

(** X6. [seek(percent)] with a known duration d > 0 and a fraction p in
    [0, 1] moves the position to p * d, which lies in [0, d], and changes
    nothing but the position; while the duration is unknown ([NaN] or 0) it
    changes nothing at all. *)
Theorem seek_within_duration (p d : Q) (s : Player)
    (Hd : Audio.duration (audio s) = Num d)
    (Hpos : (0 < d)%Q)
    (Hp : (0 <= p <= 1)%Q) :
  seek (Num p) s = set_audio (Audio.set_currentTime (Num (p * d)) (audio s)) s
  /\ within 0 d (Audio.currentTime (audio (seek (Num p) s)))
  /\ (forall p0 s0, truthy (Audio.duration (audio s0)) = false ->
        seek p0 s0 = s0)
  /\ (forall p0 s0, Audio.duration (audio s0) = NaN
                    \/ Audio.duration (audio s0) = Num 0 ->
        seek p0 s0 = s0).
Proof.
  assert (Hseek : seek (Num p) s
                  = set_audio (Audio.set_currentTime (Num (p * d)) (audio s)) s).
  { unfold seek. rewrite Hd, (truthy_pos d Hpos). reflexivity. }
  split; [exact Hseek |]. split; [| split].
  - rewrite Hseek. simpl. destruct Hp as [Hp0 Hp1]. split.
    + apply Qmult_le_0_compat; [exact Hp0 | apply Qlt_le_weak, Hpos].
    + setoid_replace d with (1 * d)%Q at 2 by ring.
      apply Qmult_le_compat_r; [exact Hp1 | apply Qlt_le_weak, Hpos].
  - intros p0 s0 H. unfold seek. rewrite H. reflexivity.
  - intros p0 s0 [H | H]; unfold seek; rewrite H; reflexivity.
Qed.

Lemma seek_within_duration_witness :
  Audio.currentTime
    (audio (seek (Num (1 # 4)) (handle (AudioLoadedMetadata 200) player0)))
  = Num ((1 # 4) * 200).
Proof.
  assert (H : seek (Num (1 # 4)) (handle (AudioLoadedMetadata 200) player0)
              = set_audio
                  (Audio.set_currentTime (Num ((1 # 4) * 200))
                     (audio (handle (AudioLoadedMetadata 200) player0)))
                  (handle (AudioLoadedMetadata 200) player0)).
  { refine (proj1 (seek_within_duration (1 # 4) 200
                     (handle (AudioLoadedMetadata 200) player0) _ _ _)).
    - reflexivity.
    - reflexivity.
    - unfold Qle. simpl. lia. }
  rewrite H. reflexivity.
Defined.

(** X7. [updateProgress()] shows nothing while the duration is unknown.  With
    a known duration d > 0 and the position t in [0, d] it shows the
    percentage t / d * 100, which lies in [0, 100], and [formatTime(t)] as
    the elapsed time; [updateDuration()] shows [formatTime(d)]. *)
Theorem updateProgress_percent (t d : Q) (s : Player)
    (Hd : Audio.duration (audio s) = Num d)
    (Hpos : (0 < d)%Q)
    (Ht : Audio.currentTime (audio s) = Num t)
    (Hrange : (0 <= t <= d)%Q) :
  updateProgress s = Some (Num (t / d * 100), formatTime (Num t))
  /\ within 0 100 (Num (t / d * 100))
  /\ updateDuration s = Some (formatTime (Num d))
  /\ (forall s0, truthy (Audio.duration (audio s0)) = false ->
        updateProgress s0 = None /\ updateDuration s0 = None).
Proof.
  assert (Hnz : Qeq_bool d 0 = false).
  { destruct (Qeq_bool d 0) eqn:E; [| reflexivity].
    apply Qeq_bool_iff in E. rewrite E in Hpos. discriminate Hpos. }
  split; [| split; [| split]].
  - unfold updateProgress. rewrite Hd, Ht, (truthy_pos d Hpos). simpl.
    rewrite Hnz. reflexivity.
  - simpl. destruct Hrange as [H0 H1]. split.
    + apply Qmult_le_0_compat; [| discriminate].
      apply Qle_shift_div_l; [exact Hpos |]. rewrite Qmult_0_l. exact H0.
    + setoid_replace (100 : Q) with (1 * 100)%Q at 2 by ring.
      apply Qmult_le_compat_r; [| discriminate].
      apply Qle_shift_div_r; [exact Hpos |]. rewrite Qmult_1_l. exact H1.
  - unfold updateDuration. rewrite Hd, (truthy_pos d Hpos). reflexivity.
  - intros s0 H. unfold updateProgress, updateDuration. rewrite H. auto.
Qed.

Lemma updateProgress_percent_witness :
  updateProgress
    (handle (AudioTimeUpdate 50) (handle (AudioLoadedMetadata 200) player0))
  = Some (Num (50 / 200 * 100), "0:50"%string).
Proof.
  refine (eq_trans
            (proj1 (updateProgress_percent 50 200
                      (handle (AudioTimeUpdate 50)
                         (handle (AudioLoadedMetadata 200) player0))
                      _ _ _ _)) _).
  - reflexivity.
  - reflexivity.
  - reflexivity.
  - unfold Qle. simpl. lia.
  - vm_compute. reflexivity.
Defined.

(** ** Seeking with the arrow keys *)

Lemma arrow_left_position (t : Q) :
  (0 <= t)%Q ->
  exists c, Math_max (Num 0) (sub (Num t) (Num 5)) = Num c
            /\ (0 <= c <= t)%Q /\ ((5 <= t)%Q -> c = (t - 5)%Q)
            /\ ((t < 5)%Q -> c = 0%Q).
Proof.
  intros Ht. unfold Math_max, sub.
  destruct (Qle_bool 0 (t - 5)) eqn:E.
  - apply Qle_bool_iff in E. exists (t - 5)%Q.
    split; [reflexivity |]. split; [lra |].
    split; [reflexivity | intros; exfalso; lra].
  - apply Qle_bool_false in E. exists 0%Q.
    split; [reflexivity |]. split; [lra |].
    split; [intros; exfalso; lra | reflexivity].
Qed.

Lemma arrow_right_position (t d : Q) :
  (t <= d)%Q ->
  exists c, Math_min (Num d) (add (Num t) (Num 5)) = Num c
            /\ (t <= c <= d)%Q /\ ((t + 5 < d)%Q -> c = (t + 5)%Q)
            /\ ((d <= t + 5)%Q -> c = d).
Proof.
  intros Ht. unfold Math_min, add.
  destruct (Qle_bool d (t + 5)) eqn:E.
  - apply Qle_bool_iff in E. exists d.
    split; [reflexivity |]. split; [lra |].
    split; [intros; exfalso; lra | reflexivity].
  - apply Qle_bool_false in E. exists (t + 5)%Q.
    split; [reflexivity |]. split; [lra |].
    split; [reflexivity | intros; exfalso; lra].
Qed.

Lemma arrow_seek_step (d : Q) (e : Event) (s : Player) :
  is_arrow_seek e = true -> position_within d s ->
  position_within d (handle e s).
Proof.
  intros He [Hd Hw]. destruct e; try discriminate He.
  simpl in He. simpl handle. unfold handleKeyboard.
  destruct ((tagName =? "INPUT")%string || (tagName =? "TEXTAREA")%string);
    [split; assumption |].
  destruct (Audio.currentTime (audio s)) as [| t] eqn:Et; [destruct Hw |].
  simpl in Hw. destruct Hw as [H0 H1].
  destruct (key =? " ")%string eqn:Ksp.
  { apply String.eqb_eq in Ksp. subst key. discriminate He. }
  destruct (key =? "ArrowLeft")%string.
  - destruct (arrow_left_position t H0) as (c & Hc & [Hc0 Hc1] & _).
    unfold position_within.
    cbn [audio set_audio Audio.duration Audio.currentTime
         Audio.set_currentTime].
    rewrite Hc. split; [exact Hd | simpl; lra].
  - simpl in He. rewrite He. rewrite Hd.
    destruct (arrow_right_position t d H1) as (c & Hc & [Hc0 Hc1] & _).
    unfold position_within.
    cbn [audio set_audio Audio.duration Audio.currentTime
         Audio.set_currentTime].
    rewrite Hc. split; [exact Hd | simpl; lra].
Qed.

(** X8. Seeking with the arrow keys never leaves the track: with a known
    duration d and the position in [0, d], the left arrow moves the position
    back by 5 seconds but not below 0, the right arrow moves it forward by 5
    seconds but not beyond d, and after any number of presses the position
    is still in [0, d].  A press inside a text input moves nothing. *)
Theorem arrow_keys_stay_within_track (d t : Q) (s : Player) (rnd : Q)
    (tagName : string)
    (Hd : Audio.duration (audio s) = Num d)
    (Ht : Audio.currentTime (audio s) = Num t)
    (Hrange : (0 <= t <= d)%Q)
    (Htag : outside_text_input tagName) :
  (exists c,
     Audio.currentTime (audio (handleKeyboard rnd tagName "ArrowLeft" s)) = Num c
     /\ ((5 <= t)%Q -> c = (t - 5)%Q) /\ ((t < 5)%Q -> c = 0%Q))
  /\ (exists c,
        Audio.currentTime (audio (handleKeyboard rnd tagName "ArrowRight" s))
        = Num c
        /\ ((t + 5 < d)%Q -> c = (t + 5)%Q) /\ ((d <= t + 5)%Q -> c = d))
  /\ (forall es, forallb is_arrow_seek es = true ->
        position_within d (run es s))
  /\ (forall key s0,
        handleKeyboard rnd "INPUT" key s0 = s0
        /\ handleKeyboard rnd "TEXTAREA" key s0 = s0).
Proof.
  destruct Hrange as [H0 H1]. unfold outside_text_input in Htag.
  split; [| split; [| split]].
  - destruct (arrow_left_position t H0) as (c & Hc & _ & Hc5 & Hc0).
    exists c. unfold handleKeyboard. rewrite Htag, Ht.
    cbn [String.eqb Ascii.eqb Bool.eqb audio set_audio Audio.currentTime
         Audio.set_currentTime].
    rewrite Hc. auto.
  - destruct (arrow_right_position t d H1) as (c & Hc & _ & Hc5 & Hcd).
    exists c. unfold handleKeyboard. rewrite Htag, Ht, Hd.
    cbn [String.eqb Ascii.eqb Bool.eqb audio set_audio Audio.currentTime
         Audio.set_currentTime].
    rewrite Hc. auto.
  - intros es Hes.
    apply (run_invariant (position_within d) (fun e => is_arrow_seek e = true)).
    + intros e s0. apply arrow_seek_step.
    + apply Forall_forall. apply forallb_forall. exact Hes.
    + split; [exact Hd |]. rewrite Ht. simpl. auto.
  - intros key s0. split; reflexivity.
Qed.

Lemma arrow_keys_stay_within_track_witness :
  position_within 200
    (run [KeyDown 0 "BODY" "ArrowRight"; KeyDown 0 "BODY" "ArrowLeft";
          KeyDown 0 "BODY" "ArrowLeft"]
       (handle (AudioLoadedMetadata 200) player0)).
Proof.
  refine (proj1 (proj2 (proj2
            (arrow_keys_stay_within_track 200 0
               (handle (AudioLoadedMetadata 200) player0) 0 "BODY"
               _ _ _ _))) _ _).
  - reflexivity.
  - reflexivity.
  - unfold Qle. simpl. lia.
  - reflexivity.
  - reflexivity.
Defined.

(** ** Handlers as sequences of basic updates *)

Lemma steps_trans (u q : bool) (s s' s'' : Player) :
  steps u q s s' -> steps u q s' s'' -> steps u q s s''.
Proof.
  intros H1 H2. induction H2 as [| s1 s2 s3 H2 IH Hb]; [exact H1 |].
  apply steps_then with s2; [apply IH; exact H1 | exact Hb].
Qed.

Lemma steps_invariant (u q : bool) (P : Player -> Prop) :
  (forall s s', basic u q s s' -> P s -> P s') ->
  forall s s', steps u q s s' -> P s -> P s'.
Proof.
  intros Hb s s' H. induction H as [| s1 s2 s3 H IH Hstep]; auto.
  intros Hs. apply (Hb s2 s3 Hstep). apply IH. exact Hs.
Qed.

(** With the index inside the queue, [loadCurrent] finds its track. *)
Lemma loadCurrent_in_range (s : Player) :
  0 <= currentIndex s < queue_length s ->
  exists track,
    queue_at (queue s) (currentIndex s) = Some track
    /\ loadCurrent s = loadTrack track (Some (queue s)) (currentIndex s) s.
Proof.
  intros H. destruct (queue_at_in_range (queue s) (currentIndex s) H)
    as [track Ht].
  exists track. split; [exact Ht |]. unfold loadCurrent. rewrite Ht.
  reflexivity.
Qed.

Lemma loadCurrent_steps (u q : bool) (s : Player) :
  u = true \/ 0 <= currentIndex s < queue_length s ->
  steps u q s (loadCurrent s).
Proof.
  intros [Hu | Hr].
  - subst u. unfold loadCurrent.
    destruct (queue_at (queue s) (currentIndex s)); by_steps.
  - destruct (loadCurrent_in_range s Hr) as (track & _ & ->). by_steps.
Qed.

Lemma playNext_steps (u q : bool) (rnd : Q) (s : Player) :
  u = true \/ ((0 <= rnd < 1)%Q /\ index_ok s) ->
  steps u q s (playNext rnd s).
Proof.
  intros H. unfold playNext.
  destruct (queue_length s =? 0) eqn:E; [by_steps |].
  assert (Hn : 0 < queue_length s)
    by (apply Z.eqb_neq in E; unfold queue_length in *; lia).
  destruct (isShuffled s);
    (eapply steps_trans; [| apply loadCurrent_steps]); try by_steps;
    (destruct H as [Hu | [Hr Hi]]; [left; exact Hu | right]);
    unfold queue_length in *; simpl.
  - apply random_index; assumption.
  - destruct Hi as [Hi | Hi].
    + rewrite Hi. simpl. rewrite Z.rem_0_l by lia. lia.
    + rewrite Z.rem_mod_nonneg by lia. apply Z.mod_pos_bound. lia.
Qed.

Lemma playPrevious_steps (u q : bool) (s : Player) :
  u = true \/ index_ok s -> steps u q s (playPrevious s).
Proof.
  intros H. unfold playPrevious.
  destruct (queue_length s =? 0) eqn:E; [by_steps |].
  assert (Hn : 0 < queue_length s)
    by (apply Z.eqb_neq in E; unfold queue_length in *; lia).
  destruct (gt (Audio.currentTime (audio s)) (Num 3)); [by_steps |].
  eapply steps_trans; [| apply loadCurrent_steps]; [by_steps |].
  destruct H as [Hu | Hi]; [left; exact Hu | right].
  unfold queue_length in *. simpl. apply previous_index; assumption.
Qed.

Lemma togglePlayPause_steps (u q : bool) (s : Player) :
  steps u q s (togglePlayPause s).
Proof. unfold togglePlayPause. destruct (isPlaying s); by_steps. Qed.

Lemma seek_steps (u q : bool) (p : number) (s : Player) :
  steps u q s (seek p s).
Proof.
  unfold seek. destruct (truthy (Audio.duration (audio s))); by_steps.
Qed.

Lemma handleTrackEnd_steps (u q : bool) (rnd : Q) (s : Player) :
  u = true \/ ((0 <= rnd < 1)%Q /\ index_ok s) ->
  steps u q s (handleTrackEnd rnd s).
Proof.
  intros H. unfold handleTrackEnd.
  destruct (is_mode (repeatMode s) RepeatOne); [by_steps |].
  destruct (is_mode (repeatMode s) RepeatAll
            || (currentIndex s <? queue_length s - 1));
    [apply playNext_steps; exact H | by_steps].
Qed.

Lemma handleKeyboard_steps (u q : bool) (rnd : Q) (tagName key : string)
    (s : Player) :
  u = true \/ ((0 <= rnd < 1)%Q /\ index_ok s) ->
  steps u q s (handleKeyboard rnd tagName key s).
Proof.
  intros H. unfold handleKeyboard.
  repeat match goal with
         | |- context [if ?b then _ else _] => destruct b
         end;
    first [ apply togglePlayPause_steps
          | apply playNext_steps; exact H
          | apply playPrevious_steps; tauto
          | by_steps ].
Qed.

Lemma settle_steps (u : bool) (id : nat) (o : Outcome) (s : Player) :
  steps u true s (settle id o s).
Proof.
  apply steps_then with s; [apply steps_refl | apply b_settle; reflexivity].
Qed.

Lemma handleAudioError_steps (u : bool) (s : Player) :
  steps u true s (handleAudioError s).
Proof.
  apply steps_then with s;
    [apply steps_refl | apply b_handleAudioError; reflexivity].
Qed.

Lemma handle_steps (u q : bool) (e : Event) (s : Player) :
  u = true \/ (event_ok e /\ index_ok s) ->
  q = true \/ quiet_event e = true ->
  steps u q s (handle e s).
Proof.
  intros H Hq. destruct e; simpl handle; simpl event_ok in H;
    simpl quiet_event in Hq;
    try (assert (Hq' : q = true)
           by (destruct Hq as [Hq | Hq]; [exact Hq | discriminate Hq]);
         subst q);
    first [ apply settle_steps
          | apply handleAudioError_steps
          | apply togglePlayPause_steps
          | apply playNext_steps; exact H
          | apply playPrevious_steps; tauto
          | apply seek_steps
          | apply handleTrackEnd_steps; exact H
          | apply handleKeyboard_steps; exact H
          | by_steps ].
Qed.

Lemma run_steps (es : list Event) (s : Player) : steps true true s (run es s).
Proof.
  revert s. induction es as [| e es IH]; intros s; [apply steps_refl |].
  apply steps_trans with (handle e s); [| apply IH].
  apply handle_steps; left; reflexivity.
Qed.

Lemma run_steps_loaded (es : list Event) (s : Player) :
  Forall event_ok es -> index_ok s -> steps false true s (run es s).
Proof.
  intros Hes. revert s.
  induction Hes as [| e es He Hes IH]; intros s Hi; [apply steps_refl |].
  apply steps_trans with (handle e s).
  - apply handle_steps; [right; split; assumption | left; reflexivity].
  - apply IH. apply index_ok_step; assumption.
Qed.

(** ** The page agrees with the controller *)

Lemma button_pause_basic (u q : bool) (s s' : Player) :
  basic u q s s' ->
  (isPlaying s = true -> Elements.playPauseTitle (elements s) = "Pause"%string) ->
  isPlaying s' = true -> Elements.playPauseTitle (elements s') = "Pause"%string.
Proof.
  intros Hb. basic_cases Hb; auto; try discriminate.
Qed.

Lemma button_state_basic (u q : bool) (s s' : Player) :
  basic u q s s' -> button_shows_state s -> button_shows_state s'.
Proof.
  intros Hb. unfold button_shows_state. basic_cases Hb; auto.
Qed.

(** X9. The play/pause button tells the truth.  In every state reached from
    the constructor, whenever [isPlaying] holds the button is titled Pause;
    and once the title agrees with [isPlaying] (as it does on a page served
    with the title Play) every later event keeps it in agreement. *)
Theorem button_follows_isPlaying (es : list Event) (a : Audio.t)
    (el : Elements.t) :
  (isPlaying (reached_by es a el) = true ->
   Elements.playPauseTitle (elements (reached_by es a el)) = "Pause"%string)
  /\ (forall s, button_shows_state s -> button_shows_state (run es s))
  /\ (Elements.playPauseTitle el = "Play"%string ->
      button_shows_state (reached_by es a el)).
Proof.
  split; [| split].
  - unfold reached_by.
    apply (steps_invariant true true
             (fun s => isPlaying s = true ->
                       Elements.playPauseTitle (elements s) = "Pause"%string)
             (button_pause_basic true true) _ _ (run_steps es _)).
    discriminate.
  - intros s. apply (steps_invariant true true _ (button_state_basic true true)).
    apply run_steps.
  - intros Hel. unfold reached_by.
    apply (steps_invariant true true _ (button_state_basic true true) _ _
             (run_steps es _)).
    exact Hel.
Qed.

Lemma button_follows_isPlaying_witness :
  button_shows_state
    (reached_by [LoadTrack trackA None 0; PlaySettled 0 Fulfilled;
                 ClickPlayPause] audio0 elements0).
Proof.
  refine (proj2 (proj2 (button_follows_isPlaying
                          [LoadTrack trackA None 0; PlaySettled 0 Fulfilled;
                           ClickPlayPause] audio0 elements0)) _).
  reflexivity.
Defined.

Lemma shows_loaded_basic (u q : bool) (s s' : Player) :
  basic u q s s' -> shows_loaded_track s -> shows_loaded_track s'.
Proof.
  intros Hb. unfold shows_loaded_track. basic_cases Hb;
    intros H tr Htr; try discriminate Htr;
    first [ apply H; exact Htr | inversion Htr; subst; repeat split ].
Qed.

(** X10. The page shows the loaded track.  In every state reached from the
    constructor, when a track is loaded its title and artist are the
    now-playing texts, its URL (behind the server address) is the source of
    the audio element, and the transport controls are enabled; before any
    track is loaded the controls are disabled. *)
Theorem page_shows_loaded_track (es : list Event) (a : Audio.t)
    (el : Elements.t) :
  shows_loaded_track (reached_by es a el)
  /\ currentTrack (constructor a el) = None
  /\ Elements.controlsEnabled (elements (constructor a el)) = false
  /\ (forall track queue0 startIndex s,
        shows_loaded_track (loadTrack track queue0 startIndex s)).
Proof.
  split; [| split; [| split]].
  - unfold reached_by.
    apply (steps_invariant true true _ (shows_loaded_basic true true) _ _
             (run_steps es _)).
    intros t Ht. discriminate Ht.
  - reflexivity.
  - reflexivity.
  - intros track queue0 startIndex s tr Htr.
    destruct queue0; inversion Htr; subst; repeat split.
Qed.

Lemma page_shows_loaded_track_witness :
  Elements.currentTrackTitle
    (elements (reached_by [LoadTrack trackA (Some [trackA; trackB]) 0;
                           ClickNext 0] audio0 elements0))
  = "Beta"%string.
Proof.
  refine (proj1 (proj1 (page_shows_loaded_track
                          [LoadTrack trackA (Some [trackA; trackB]) 0;
                           ClickNext 0] audio0 elements0) trackB _)).
  reflexivity.
Defined.

(** ** Bookkeeping of playback requests *)

Lemma requests_add (l : list (nat * Awaiter)) (n : nat) (k : Awaiter) :
  NoDup (map fst l) -> (forall r, In r l -> (fst r < n)%nat) ->
  NoDup (map fst (l ++ [(n, k)]))
  /\ (forall r, In r (l ++ [(n, k)]) -> (fst r < S n)%nat).
Proof.
  intros Hd Hn. split.
  - rewrite map_app. simpl.
    apply NoDup_app.
    + exact Hd.
    + constructor; [intros [] | constructor].
    + intros x Hx [Hy | []]. subst x.
      apply in_map_iff in Hx. destruct Hx as (r & Hr & Hin).
      specialize (Hn r Hin). lia.
  - intros r Hr. apply in_app_iff in Hr. destruct Hr as [Hr | [Hr | []]].
    + specialize (Hn r Hr). lia.
    + subst r. simpl. lia.
Qed.

Lemma requests_drop (l : list (nat * Awaiter)) (n id : nat) :
  NoDup (map fst l) -> (forall r, In r l -> (fst r < n)%nat) ->
  NoDup (map fst (drop_request id l))
  /\ (forall r, In r (drop_request id l) -> (fst r < n)%nat).
Proof.
  intros Hd Hn. unfold drop_request. split.
  - induction l as [| r l IH]; simpl; [constructor |].
    simpl in Hd. inversion Hd as [| x xs Hx Hxs]; subst.
    assert (IH' : NoDup (map fst (filter (fun r0 => negb (fst r0 =? id)%nat) l)))
      by (apply IH; [exact Hxs | intros r' Hr'; apply Hn; right; exact Hr']).
    destruct (negb (fst r =? id)%nat); [| exact IH'].
    simpl. constructor; [| exact IH'].
    intros Hin. apply Hx. apply in_map_iff in Hin.
    destruct Hin as (r' & Hr' & Hin). apply filter_In in Hin.
    apply in_map_iff. exists r'. tauto.
  - intros r Hr. apply filter_In in Hr. apply Hn. tauto.
Qed.

Lemma requests_wf_basic (u q : bool) (s s' : Player) :
  basic u q s s' -> requests_wf s -> requests_wf s'.
Proof.
  intros Hb. unfold requests_wf, requests_numbered. basic_cases Hb;
    intros [Hd Hn]; try (split; assumption);
    first [ apply requests_add; assumption
          | apply requests_drop; assumption ].
Qed.

Lemma take_after_drop (id : nat) (l : list (nat * Awaiter)) :
  take_request id (drop_request id l) = None.
Proof.
  unfold take_request, drop_request.
  induction l as [| r l IH]; simpl; [reflexivity |].
  destruct (fst r =? id)%nat eqn:E; simpl; [exact IH |].
  rewrite E. exact IH.
Qed.

Lemma settle_pending_dropped (id : nat) (o : Outcome) (s : Player) :
  pending (settle id o s) = drop_request id (pending s).
Proof.
  unfold settle. destruct (take_request id (pending s)) as [k |] eqn:E.
  - destruct k, o; reflexivity.
  - unfold take_request, drop_request in *.
    induction (pending s) as [| r l IH]; simpl in *; [reflexivity |].
    destruct (fst r =? id)%nat; simpl in *; [discriminate E |].
    f_equal. apply IH. exact E.
Qed.

(** Every state reached from the constructor numbers its requests apart. *)
Lemma requests_wf_reached (es : list Event) (a : Audio.t) (el : Elements.t) :
  requests_wf (reached_by es a el).
Proof.
  unfold reached_by.
  apply (steps_invariant true true _ (requests_wf_basic true true) _ _
           (run_steps es _)).
  split; [constructor | intros r []].
Qed.

(** ** The track-changed event of a load *)

Lemma load_request_held_loadTrack (track : Track.t)
    (queue0 : option (list Track.t)) (startIndex : Z) (s : Player) :
  requests_numbered s ->
  load_request_held (nextRequest s) (loadTrack track queue0 startIndex s).
Proof.
  intros Hn.
  destruct (loadTrack_fields track queue0 startIndex s)
    as (_ & _ & _ & _ & _ & Hp & Hx & _ & _).
  unfold load_request_held. rewrite Hp, Hx. split; [| split].
  - apply in_app_iff. right. left. reflexivity.
  - intros r Hr Hf. apply in_app_iff in Hr. destruct Hr as [Hr | [Hr | []]].
    + specialize (Hn r Hr). lia.
    + subst r. reflexivity.
  - lia.
Qed.

Lemma load_request_held_basic (n : nat) (s s' : Player) :
  basic true false s s' -> load_request_held n s -> load_request_held n s'.
Proof.
  intros Hb. unfold load_request_held. basic_cases Hb;
    try discriminate Hq; intros (H1 & H2 & H3);
    try (split; [| split]; assumption);
    (split; [| split];
     [ apply in_app_iff; left; exact H1
     | intros r Hr Hf; apply in_app_iff in Hr;
       destruct Hr as [Hr | [Hr | []]];
       [ exact (H2 r Hr Hf) | subst r; simpl in Hf; lia ]
     | lia ]).
Qed.

Lemma settle_nextRequest (id : nat) (o : Outcome) (s : Player) :
  nextRequest (settle id o s) = nextRequest s.
Proof.
  unfold settle. destruct (take_request id (pending s)) as [k |];
    [| reflexivity].
  destruct k, o; reflexivity.
Qed.

Lemma load_request_held_handle (n : nat) (e : Event) (s : Player) :
  not_settling n e -> load_request_held n s -> load_request_held n (handle e s).
Proof.
  intros He Hs. destruct (quiet_event e) eqn:Q.
  - apply (steps_invariant true false _ (load_request_held_basic n) s).
    + apply handle_steps; [left; reflexivity | right; exact Q].
    + exact Hs.
  - destruct e; try discriminate Q.
    + exact Hs.
    + assert (Hid : id <> n) by (intros E; subst id; exact (He o eq_refl)).
      destruct Hs as (H1 & H2 & H3).
      unfold load_request_held. cbn [handle].
      rewrite settle_pending_dropped, settle_nextRequest.
      split; [| split; [| exact H3]].
      * unfold drop_request. apply filter_In. split; [exact H1 |].
        cbn [fst]. apply Nat.eqb_neq in Hid. rewrite Nat.eqb_sym, Hid.
        reflexivity.
      * intros r Hr Hf. apply filter_In in Hr. exact (H2 r (proj1 Hr) Hf).
Qed.

Lemma load_request_held_run (n : nat) (es : list Event) :
  Forall (not_settling n) es ->
  forall s, load_request_held n s -> load_request_held n (run es s).
Proof.
  induction 1 as [| e es He Hes IH]; intros s Hs; [exact Hs |].
  change (run (e :: es) s) with (run es (handle e s)).
  apply IH. apply load_request_held_handle; assumption.
Qed.

Lemma settle_held (n : nat) (o : Outcome) (s : Player) :
  load_request_held n s ->
  take_request n (pending s) = Some PlayInLoadTrack
  /\ output (settle n o s)
     = output s ++ play_report o ++ [TrackChanged (currentTrack s)].
Proof.
  intros (H1 & H2 & _).
  assert (Ht : take_request n (pending s) = Some PlayInLoadTrack).
  { unfold take_request.
    destruct (find (fun r => (fst r =? n)%nat) (pending s)) as [r |] eqn:E.
    - apply find_some in E. destruct E as [Hr Hf].
      apply Nat.eqb_eq in Hf. simpl. rewrite (H2 r Hr Hf). reflexivity.
    - pose proof (find_none _ _ E _ H1) as Hf. simpl in Hf.
      rewrite Nat.eqb_refl in Hf. discriminate Hf. }
  split; [exact Ht |].
  unfold settle. rewrite Ht.
  destruct o; simpl; rewrite <- ?app_assoc; reflexivity.
Qed.

(** C2, amended: a call of [loadTrack] dispatches nothing itself.  Its
    track-changed event is dispatched when the result of its playback request
    arrives, after the report of the failure if the request failed, and on
    success and failure alike.  Whatever is handled between the call and that
    result, the request is still pending then, and its result dispatches one
    event that carries the controller's current track of that moment: the
    call's own track when the result arrives next, the track of a newer
    [loadTrack] when one was called in between. *)
Theorem trackChanged_after_settlement (track : Track.t)
    (queue0 : option (list Track.t)) (startIndex : Z) (o : Outcome)
    (s : Player) (es : list Event)
    (Hn : requests_numbered s)
    (Hes : Forall (not_settling (nextRequest s)) es) :
  let n := nextRequest s in
  let s1 := loadTrack track queue0 startIndex s in
  let s' := run es s1 in
  output s1 = output s
  /\ take_request n (pending s') = Some PlayInLoadTrack
  /\ output (settle n o s')
     = output s' ++ play_report o ++ [TrackChanged (currentTrack s')]
  /\ output (settle n o s1)
     = output s ++ play_report o ++ [TrackChanged (Some track)]
  /\ (forall (t2 : Track.t) (q2 : option (list Track.t)) (i2 : Z),
        output (settle n o (loadTrack t2 q2 i2 s1))
        = output s ++ play_report o ++ [TrackChanged (Some t2)]).
Proof.
  cbv zeta.
  pose proof (load_request_held_loadTrack track queue0 startIndex s Hn) as H1.
  destruct (loadTrack_fields track queue0 startIndex s)
    as (Hc & _ & _ & _ & _ & _ & _ & Ho & _).
  split; [exact Ho |].
  destruct (settle_held (nextRequest s) o _
              (load_request_held_run _ es Hes _ H1)) as (Ht & Hout).
  split; [exact Ht |]. split; [exact Hout |]. split.
  - destruct (settle_held (nextRequest s) o _ H1) as (_ & Hout1).
    rewrite Hout1, Hc, Ho. reflexivity.
  - intros t2 q2 i2.
    assert (H2 : load_request_held (nextRequest s)
                   (loadTrack t2 q2 i2 (loadTrack track queue0 startIndex s))).
    { apply (load_request_held_basic _ _ _ (b_loadTrack true false t2 q2 i2 _)).
      exact H1. }
    destruct (settle_held (nextRequest s) o _ H2) as (_ & Hout2).
    destruct (loadTrack_fields t2 q2 i2
                (loadTrack track queue0 startIndex s))
      as (Hc2 & _ & _ & _ & _ & _ & _ & Ho2 & _).
    rewrite Hout2, Hc2, Ho2, Ho. reflexivity.
Qed.

Lemma trackChanged_after_settlement_witness :
  output (settle 0 Rejected
            (run [LoadTrack trackD (Some [trackD]) 0]
               (loadTrack trackB (Some [trackA; trackB; trackC]) 1 player0)))
  = [ConsoleError "Error playing audio:"; Toast "Error playing audio" "error";
     TrackChanged (Some trackD)].
Proof.
  refine (proj1 (proj2 (proj2 (trackChanged_after_settlement
            trackB (Some [trackA; trackB; trackC]) 1 Rejected player0
            [LoadTrack trackD (Some [trackD]) 0] _ _)))).
  - intros r Hr. destruct Hr.
  - repeat constructor. intros o' E. discriminate E.
Defined.

(** ** Loads never fail when the callers keep their side *)

Lemma take_request_In (id : nat) (k : Awaiter) (l : list (nat * Awaiter)) :
  take_request id l = Some k -> In (id, k) l.
Proof.
  unfold take_request. intros H.
  destruct (find (fun r => (fst r =? id)%nat) l) as [r |] eqn:E;
    [| discriminate H].
  apply find_some in E. destruct E as [Hin Heq].
  apply Nat.eqb_eq in Heq. destruct r as [n k']. simpl in *.
  inversion H. subst. exact Hin.
Qed.

Lemma In_drop_request (id : nat) (r : nat * Awaiter)
    (l : list (nat * Awaiter)) :
  In r (drop_request id l) -> In r l.
Proof. unfold drop_request. intros H. apply filter_In in H. tauto. Qed.

Lemma loads_clean_basic (s s' : Player) :
  basic false true s s' -> loads_clean s -> loads_clean s'.
Proof.
  intros Hb. unfold loads_clean, load_pending. basic_cases Hb;
    try discriminate Hu; intros [Hp Ho];
    try (progress (repeat match goal with
                          | |- context [isShuffled ?x] => destruct (isShuffled x)
                          | |- context [repeatMode ?x] => destruct (repeatMode x)
                          end));
    rewrite ?existsb_app;
    cbn [existsb load_failure String.eqb Ascii.eqb Bool.eqb orb negb
         repeat_title append];
    rewrite ?Ho;
    try match goal with
        | E : take_request ?id _ = Some PlayInLoadTrack |- _ =>
            let Hc := fresh "Hc" in
            assert (Hc : currentTrack s <> None)
              by (apply Hp; exists id; apply take_request_In; exact E);
            destruct (currentTrack s); [| congruence]
        end;
    (split; [| reflexivity]);
    try exact Hp; try discriminate;
    try (intros [n Hn]; apply Hp; exists n;
         first [ exact Hn
               | apply In_drop_request in Hn; exact Hn
               | apply in_app_iff in Hn;
                 destruct Hn as [Hn | [Hn | []]];
                 [exact Hn | discriminate Hn] ]).
Qed.

Lemma loaded_basic (s s' : Player) :
  basic false true s s' -> currentTrack s <> None -> currentTrack s' <> None.
Proof.
  intros Hb. basic_cases Hb; try discriminate Hu; auto; discriminate.
Qed.

Lemma run_index_ok (es : list Event) (s : Player) :
  Forall event_ok es -> index_ok s -> index_ok (run es s).
Proof.
  intros Hes Hs. apply (run_invariant index_ok event_ok); auto.
  intros e s0. apply index_ok_step.
Qed.

Lemma existsb_false_not_In (f : Effect -> bool) (l : list Effect) (e : Effect) :
  existsb f l = false -> f e = true -> ~ In e l.
Proof.
  intros Hf He Hin.
  assert (Ht : existsb f l = true) by (apply existsb_exists; eauto).
  congruence.
Qed.

(** X12. When the page keeps its side (a start index inside the queue it
    passes to [loadTrack]), loading never fails inside the controller: in
    every state reached from the constructor no error about loading a track
    has been reported, every track-changed event carries a track, and once a
    track is loaded there is always one.  An index far outside the queue
    breaks this: after [loadTrack(A, [A, B], -4)] the next button reports a
    load error and leaves no track loaded. *)
Theorem loadTrack_never_fails (es : list Event) (a : Audio.t) (el : Elements.t)
    (Hes : Forall event_ok es) :
  let s := reached_by es a el in
  ~ In (Toast "Error loading track" "error") (output s)
  /\ ~ In (ConsoleError "Error loading track:") (output s)
  /\ ~ In (TrackChanged None) (output s)
  /\ (forall es', Forall event_ok es' -> currentTrack s <> None ->
        currentTrack (run es' s) <> None)
  /\ (let s' := run [LoadTrack trackA (Some [trackA; trackB]) (-4);
                     ClickNext 0] (constructor a el) in
      In (Toast "Error loading track" "error") (output s')
      /\ currentTrack s' = None).
Proof.
  cbv zeta. unfold reached_by.
  assert (H0 : index_ok (constructor a el)) by (left; reflexivity).
  assert (Hc : loads_clean (run es (constructor a el))).
  { apply (steps_invariant false true _ loads_clean_basic _ _
             (run_steps_loaded es _ Hes H0)).
    split; [| reflexivity]. intros [id []]. }
  destruct Hc as [_ Hout].
  split; [| split; [| split; [| split]]].
  - apply (existsb_false_not_In load_failure); [exact Hout | reflexivity].
  - apply (existsb_false_not_In load_failure); [exact Hout | reflexivity].
  - apply (existsb_false_not_In load_failure); [exact Hout | reflexivity].
  - intros es' Hes' Hl.
    apply (steps_invariant false true _ loaded_basic _ _
             (run_steps_loaded es' _ Hes' (run_index_ok es _ Hes H0))).
    exact Hl.
  - split; [| reflexivity]. simpl. auto.
Qed.

Lemma loadTrack_never_fails_witness :
  ~ In (TrackChanged None)
      (output (reached_by [LoadTrack trackA (Some [trackA; trackB]) 1;
                           ClickNext (1 # 2); PlaySettled 1 Rejected;
                           PlaySettled 0 Fulfilled] audio0 elements0)).
Proof.
  refine (proj1 (proj2 (proj2 (loadTrack_never_fails
                                 [LoadTrack trackA (Some [trackA; trackB]) 1;
                                  ClickNext (1 # 2); PlaySettled 1 Rejected;
                                  PlaySettled 0 Fulfilled] audio0 elements0 _)))).
  repeat constructor; simpl; unfold Qle, Qlt; simpl; lia.
Defined.

(** ** Starting playback from the page *)

Lemma findIndex_from_spec (f : Track.t -> bool) (l : list Track.t) (i : Z) :
  match find f l with
  | Some x =>
      exists k, findIndex_from f l i = i + Z.of_nat k
                /\ nth_error l k = Some x /\ (k < List.length l)%nat
                /\ forall j y, (j < k)%nat -> nth_error l j = Some y ->
                               f y = false
  | None => findIndex_from f l i = -1
  end.
Proof.
  revert i. induction l as [| x l IH]; intros i; simpl; [reflexivity |].
  destruct (f x) eqn:Ex.
  - exists O. simpl. repeat split; lia.
  - specialize (IH (i + 1)). destruct (find f l) as [y |].
    + destruct IH as (k & Hk & Hn & Hlt & Hfirst). exists (S k). simpl.
      repeat split; [lia | exact Hn | lia |].
      intros j y' Hj Hy. destruct j as [| j]; simpl in Hy.
      * inversion Hy. subst y'. exact Ex.
      * apply (Hfirst j y'); [lia | exact Hy].
    + exact IH.
Qed.

Lemma findIndex_found (f : Track.t -> bool) (l : list Track.t) (x : Track.t) :
  find f l = Some x ->
  0 <= findIndex f l < Z.of_nat (List.length l)
  /\ queue_at l (findIndex f l) = Some x
  /\ forall j y, 0 <= j < findIndex f l -> queue_at l j = Some y ->
                 f y = false.
Proof.
  intros H. pose proof (findIndex_from_spec f l 0) as S. rewrite H in S.
  destruct S as (k & Hk & Hn & Hlt & Hfirst). unfold findIndex. rewrite Hk.
  split; [lia |]. unfold queue_at. simpl. split.
  - destruct (Z.of_nat k <? 0) eqn:E; [apply Z.ltb_lt in E; lia |].
    rewrite Nat2Z.id. exact Hn.
  - intros j y Hj Hy.
    destruct (j <? 0) eqn:E; [discriminate Hy |].
    apply (Hfirst (Z.to_nat j) y); [lia | exact Hy].
Qed.

Lemma findIndex_missing (f : Track.t -> bool) (l : list Track.t) :
  find f l = None -> findIndex f l = -1.
Proof.
  intros H. pose proof (findIndex_from_spec f l 0) as S. rewrite H in S.
  exact S.
Qed.

(** X13. [playTrack(trackId)] on the page: an id that is not in the library
    changes nothing.  Otherwise the library's track with that id becomes the
    current track and the list on view becomes the queue: the tracks of the
    playlist when the view is a playlist's detail page, the library in every
    other case.  The index is the first position of the queue that holds a
    track with that id (no earlier entry has the id), or -1 when no entry of
    the queue has it, so the index invariant holds afterwards.  When the view
    lists the library the index is always inside the queue and the queue
    entry there is the current track. *)
Theorem playTrack_starts_from_view (trackId : string) (app : App.state)
    (s : Player) :
  let has_id := fun t => (Track.id t =? trackId)%string in
  let s' := playTrack trackId app s in
  (find has_id (App.tracks app) = None -> s' = s)
  /\ (forall track, find has_id (App.tracks app) = Some track ->
        currentTrack s' = Some track
        /\ Track.id track = trackId
        /\ index_ok s'
        /\ (currentIndex s' = -1
            \/ exists t', queue_at (queue s') (currentIndex s') = Some t'
                          /\ Track.id t' = trackId)
        /\ (library_view app ->
            queue s' = App.tracks app
            /\ 0 <= currentIndex s' < queue_length s'
            /\ queue_at (queue s') (currentIndex s') = Some track)
        /\ (forall p, playlist_view app p -> queue s' = Playlist.tracks p)
        /\ (forall j t', 0 <= j < currentIndex s' ->
              queue_at (queue s') j = Some t' -> Track.id t' <> trackId)
        /\ (currentIndex s' = -1 ->
            forall t', In t' (queue s') -> Track.id t' <> trackId)).
Proof.
  cbv zeta. unfold playTrack. split.
  - intros H. rewrite H. reflexivity.
  - intros track H. rewrite H.
    assert (Hid : Track.id track = trackId).
    { apply find_some in H. apply String.eqb_eq. tauto. }
    set (q := if (App.currentView app =? "playlist-detail")%string
              then match App.currentPlaylist app with
                   | Some playlist => Playlist.tracks playlist
                   | None => App.tracks app
                   end
              else App.tracks app).
    set (f := fun t => (Track.id t =? trackId)%string) in *.
    set (s' := loadTrack track (Some q) (findIndex f q) s).
    assert (E1 : currentTrack s' = Some track) by reflexivity.
    assert (E2 : queue s' = q) by reflexivity.
    assert (E3 : currentIndex s' = findIndex f q) by reflexivity.
    clearbody s'. unfold index_ok, queue_length. rewrite E1, E2, E3.
    split; [reflexivity |]. split; [exact Hid |].
    assert (Hcases : (findIndex f q = -1 /\ find f q = None)
                     \/ exists t', 0 <= findIndex f q < Z.of_nat (List.length q)
                                   /\ queue_at q (findIndex f q) = Some t'
                                   /\ Track.id t' = trackId
                                   /\ find f q = Some t').
    { destruct (find f q) as [t' |] eqn:E.
      - right. exists t'. destruct (findIndex_found f q t' E) as (Hr & Hq & _).
        split; [exact Hr |]. split; [exact Hq |].
        apply find_some in E. split; [| reflexivity].
        apply String.eqb_eq. tauto.
      - left. split; [| reflexivity]. apply findIndex_missing. exact E. }
    split; [| split; [| split; [| split; [| split]]]].
    + destruct Hcases as [[Hm _] | (t' & Hr & _)]; [left | right]; assumption.
    + destruct Hcases as [[Hm _] | (t' & _ & Hq & Ht' & _)];
        [left; exact Hm |].
      right. exists t'. auto.
    + intros Hview.
      assert (Hq : q = App.tracks app).
      { unfold q. destruct Hview as [Hv | Hv]; rewrite Hv.
        - destruct (App.currentView app =? "playlist-detail")%string;
            reflexivity.
        - reflexivity. }
      rewrite Hq. destruct (findIndex_found f (App.tracks app) track H)
        as (Hr & Hat & _).
      auto.
    + intros p [Hv Hp]. unfold q. rewrite Hv, Hp. reflexivity.
    + intros j t' Hj Hat.
      destruct Hcases as [[Hm _] | (t0 & _ & _ & _ & E)]; [lia |].
      destruct (findIndex_found f q t0 E) as (_ & _ & Hfirst).
      pose proof (Hfirst j t' Hj Hat) as Hf. unfold f in Hf.
      apply String.eqb_neq. exact Hf.
    + intros Hm t' Hin.
      destruct Hcases as [[_ E] | (t0 & Hr & _)]; [| lia].
      pose proof (find_none f q E t' Hin) as Hf. unfold f in Hf.
      apply String.eqb_neq. exact Hf.
Qed.

Lemma playTrack_starts_from_view_witness :
  queue
    (playTrack "b"
       (App.mk [trackA; trackB; trackC] "playlist-detail"
          (Some (Playlist.mk "p1" "Favourites" [trackC; trackB])))
       player0)
  = [trackC; trackB].
Proof.
  destruct (playTrack_starts_from_view "b"
              (App.mk [trackA; trackB; trackC] "playlist-detail"
                 (Some (Playlist.mk "p1" "Favourites" [trackC; trackB])))
              player0)
    as [_ H].
  destruct (H trackB eq_refl) as (_ & _ & _ & _ & _ & Hp & _).
  exact (Hp (Playlist.mk "p1" "Favourites" [trackC; trackB])
            (conj eq_refl eq_refl)).
Defined.

(** ** The queue view *)

Lemma formatTime_or_zero (d : number) :
  formatTime (or_else d (Num 0)) = formatTime d.
Proof.
  unfold or_else. destruct (truthy d) eqn:E; [reflexivity |].
  unfold formatTime. cbn [ToBoolean]. rewrite E. reflexivity.
Qed.

Lemma queue_rows_nth (current : Z) (l : list Track.t) (index : Z) (i : nat)
    (track : Track.t) :
  nth_error l i = Some track ->
  nth_error (queue_rows current l index) i
  = Some (QueueItem.mk (index + Z.of_nat i + 1) (Track.title track)
            (Track.artist track) (formatTime (Track.duration track))
            (index + Z.of_nat i =? current)).
Proof.
  revert index i. induction l as [| x l IH]; intros index i H.
  - destruct i; discriminate H.
  - destruct i as [| i]; cbn [nth_error queue_rows] in *.
    + inversion H. subst. rewrite formatTime_or_zero.
      change (Z.of_nat 0) with 0. rewrite Z.add_0_r. reflexivity.
    + rewrite (IH (index + 1) i H).
      replace (index + Z.of_nat (S i)) with (index + 1 + Z.of_nat i) by lia.
      reflexivity.
Qed.

Lemma queue_rows_length (current : Z) (l : list Track.t) (index : Z) :
  List.length (queue_rows current l index) = List.length l.
Proof.
  revert index. induction l as [| x l IH]; intros index; simpl; auto.
Qed.

(** X14. The queue view: an empty queue shows the empty-state text; otherwise
    [showQueue()] builds one row per queue entry, in order, the row of entry
    i numbered i + 1 with the entry's title, artist and formatted duration,
    and marked as playing exactly when i is the current index.  A click on
    the row of entry i loads that entry at index i and keeps the queue, so
    the view shown next marks row i. *)
Theorem showQueue_rows (s : Player) (i : nat) (track : Track.t)
    (Hi : nth_error (queue s) i = Some track) :
  (exists rows,
     showQueue s = Some rows
     /\ List.length rows = List.length (queue s)
     /\ nth_error rows i
        = Some (QueueItem.mk (Z.of_nat i + 1) (Track.title track)
                  (Track.artist track) (formatTime (Track.duration track))
                  (Z.of_nat i =? currentIndex s)))
  /\ (let s' := queueItemClick track (Z.of_nat i) s in
      queue s' = queue s
      /\ currentIndex s' = Z.of_nat i
      /\ currentTrack s' = Some track
      /\ index_ok s'
      /\ exists rows row,
           showQueue s' = Some rows /\ nth_error rows i = Some row
           /\ QueueItem.playing row = true)
  /\ (forall s0, queue s0 = [] -> showQueue s0 = None).
Proof.
  assert (Hlen : (i < List.length (queue s))%nat)
    by (apply nth_error_Some; congruence).
  assert (Hrows : forall s1, queue s1 = queue s ->
            showQueue s1 = Some (queue_rows (currentIndex s1) (queue s) 0)).
  { intros s1 Hq. unfold showQueue, queue_length. rewrite Hq.
    destruct (Z.of_nat (List.length (queue s)) =? 0) eqn:E;
      [apply Z.eqb_eq in E; lia | reflexivity]. }
  split; [| split].
  - exists (queue_rows (currentIndex s) (queue s) 0).
    split; [apply Hrows; reflexivity |].
    split; [apply queue_rows_length |].
    apply (queue_rows_nth (currentIndex s) (queue s) 0 i track Hi).
  - cbv zeta. unfold queueItemClick.
    set (s' := loadTrack track (Some (queue s)) (Z.of_nat i) s).
    assert (E1 : currentTrack s' = Some track) by reflexivity.
    assert (E2 : queue s' = queue s) by reflexivity.
    assert (E3 : currentIndex s' = Z.of_nat i) by reflexivity.
    clearbody s'. rewrite E1, E2, E3. repeat split.
    + right. unfold queue_length. rewrite E2, E3. lia.
    + exists (queue_rows (currentIndex s') (queue s) 0).
      eexists. split; [apply Hrows; exact E2 |].
      split; [apply (queue_rows_nth _ (queue s) 0 i track Hi) |].
      simpl. rewrite E3. apply Z.eqb_refl.
  - intros s0 H0. unfold showQueue, queue_length. rewrite H0. reflexivity.
Qed.

Lemma showQueue_rows_witness :
  exists rows,
    showQueue (loadTrack trackA (Some [trackA; trackB]) 0 player0) = Some rows
    /\ List.length rows = 2%nat
    /\ nth_error rows 1
       = Some (QueueItem.mk 2 "Beta" "Bob" "3:00" false).
Proof.
  exact (proj1 (showQueue_rows
                  (loadTrack trackA (Some [trackA; trackB]) 0 player0)
                  1 trackB eq_refl)).
Defined.

(** ** Tracks ending one after the other *)

Lemma playNext_repeatMode (rnd : Q) (s : Player) :
  repeatMode (playNext rnd s) = repeatMode s.
Proof.
  unfold playNext. destruct (queue_length s =? 0); [reflexivity |].
  destruct (isShuffled s);
    match goal with
    | |- repeatMode (loadCurrent ?x) = _ =>
        destruct (loadCurrent_fields x) as (_ & _ & _ & _ & L5 & _)
    end; rewrite L5; reflexivity.
Qed.

Lemma handleTrackEnd_sequential (rnd : Q) (s : Player) :
  0 <= currentIndex s < queue_length s -> isShuffled s = false ->
  queue (handleTrackEnd rnd s) = queue s
  /\ isShuffled (handleTrackEnd rnd s) = false
  /\ repeatMode (handleTrackEnd rnd s) = repeatMode s
  /\ currentIndex (handleTrackEnd rnd s)
     = index_after_ends (repeatMode s) (currentIndex s) (queue_length s) 1.
Proof.
  intros Hi Hs.
  destruct (playNext_sequential rnd s Hi Hs) as (P1 & P2 & P3 & _).
  pose proof (playNext_repeatMode rnd s) as P4.
  unfold handleTrackEnd, index_after_ends.
  destruct (repeatMode s) eqn:Em; cbn [is_mode orb].
  - destruct (currentIndex s <? queue_length s - 1) eqn:E.
    + apply Z.ltb_lt in E. rewrite P1, P2, P3, P4.
      rewrite Z.mod_small by lia. repeat split; auto. lia.
    + apply Z.ltb_ge in E. simpl. rewrite Hs, Em. repeat split; auto. lia.
  - rewrite P1, P2, P3, P4. auto.
  - simpl. rewrite Hs, Em. auto.
Qed.

Lemma index_after_ends_step (m : RepeatMode) (i n : Z) (k : nat) :
  0 <= i < n ->
  0 <= index_after_ends m i n 1 < n
  /\ index_after_ends m (index_after_ends m i n 1) n k
     = index_after_ends m i n (S k).
Proof.
  intros Hi. unfold index_after_ends. destruct m.
  - split; [lia |]. lia.
  - split; [apply Z.mod_pos_bound; lia |].
    rewrite Z.add_mod_idemp_l by lia. f_equal. lia.
  - split; [lia | reflexivity].
Qed.

Lemma ended_or_settled_run (es : list Event) :
  forallb ended_or_settled es = true ->
  forall s : Player,
    0 <= currentIndex s < queue_length s -> isShuffled s = false ->
    currentIndex (run es s)
    = index_after_ends (repeatMode s) (currentIndex s) (queue_length s)
        (count_ended es)
    /\ queue (run es s) = queue s.
Proof.
  induction es as [| e es IH]; intros Hall s Hi Hs.
  - simpl. split; [| reflexivity].
    unfold index_after_ends. destruct (repeatMode s); simpl;
      rewrite ?Z.add_0_r, ?Z.mod_small by lia; lia.
  - simpl in Hall. apply andb_true_iff in Hall. destruct Hall as [He Hall].
    specialize (IH Hall). unfold run in *. simpl fold_left.
    destruct e; try discriminate He.
    + destruct (handleTrackEnd_sequential rnd s Hi Hs) as (T1 & T2 & T3 & T4).
      destruct (index_after_ends_step (repeatMode s) (currentIndex s)
                  (queue_length s) (count_ended es) Hi) as [Hr Hk].
      assert (Hlen : queue_length (handleTrackEnd rnd s) = queue_length s)
        by (unfold queue_length; rewrite T1; reflexivity).
      destruct (IH (handle (AudioEnded rnd) s)) as [I1 I2]; simpl handle.
      * rewrite Hlen, T4. exact Hr.
      * exact T2.
      * simpl handle in I1, I2. rewrite I1, I2, T1, T3, T4, Hlen.
        split; [exact Hk | reflexivity].
    + destruct (settle_frame id o s) as (_ & F2 & F3 & _ & _ & F6 & F7).
      assert (Hlen : queue_length (settle id o s) = queue_length s)
        by (unfold queue_length; rewrite F2; reflexivity).
      destruct (IH (handle (PlaySettled id o) s)) as [I1 I2]; simpl handle.
      * rewrite Hlen, F3. exact Hi.
      * rewrite F6. exact Hs.
      * simpl handle in I1, I2. rewrite I1, I2, F2, F3, F7, Hlen. auto.
Qed.

(** X15. Tracks ending one after the other, shuffle off: with repeat all the
    index goes round the queue, (index + k) mod n after k tracks have ended;
    with repeat off it advances to the last position and stays there,
    min(index + k, n - 1); with repeat one it does not move.  The results of
    the playback requests arriving in between change nothing of this, and the
    queue stays as it was. *)
Theorem track_ends_follow_repeat_mode (es : list Event) (s : Player)
    (Hi : 0 <= currentIndex s < queue_length s)
    (Hs : isShuffled s = false)
    (Hes : forallb ended_or_settled es = true) :
  let k := Z.of_nat (count_ended es) in
  (repeatMode s = RepeatAll ->
     currentIndex (run es s) = (currentIndex s + k) mod queue_length s)
  /\ (repeatMode s = RepeatOff ->
        currentIndex (run es s) = Z.min (currentIndex s + k) (queue_length s - 1))
  /\ (repeatMode s = RepeatOne -> currentIndex (run es s) = currentIndex s)
  /\ queue (run es s) = queue s.
Proof.
  cbv zeta. destruct (ended_or_settled_run es Hes s Hi Hs) as [H1 H2].
  rewrite H1. unfold index_after_ends.
  repeat split; try exact H2; intros Hm; rewrite Hm; reflexivity.
Qed.

Lemma track_ends_follow_repeat_mode_witness :
  currentIndex
    (run [AudioEnded 0; PlaySettled 1 Fulfilled; AudioEnded 0; AudioEnded 0]
       playingA)
  = Z.min (0 + 3) (2 - 1).
Proof.
  refine (proj1 (proj2 (track_ends_follow_repeat_mode
                          [AudioEnded 0; PlaySettled 1 Fulfilled;
                           AudioEnded 0; AudioEnded 0] playingA _ _ _)) _).
  - unfold queue_length. simpl. lia.
  - reflexivity.
  - reflexivity.
  - reflexivity.
Defined.

(** ** Every failure is reported once *)

Lemma error_toasts_emit (s : Player) (l : list Effect) (s' : Player) :
  output s' = output s ++ l ->
  error_toasts s' = (error_toasts s + List.length (filter is_error_toast l))%nat.
Proof.
  intros H. unfold error_toasts. rewrite H, filter_app, length_app.
  reflexivity.
Qed.

Lemma errors_quiet_basic (s s' : Player) :
  basic false false s s' -> error_toasts s' = error_toasts s.
Proof.
  intros Hb. unfold error_toasts. basic_cases Hb;
    try discriminate Hu; try discriminate Hq; try reflexivity;
    rewrite filter_app, length_app;
    repeat match goal with
           | |- context [isShuffled ?x] => destruct (isShuffled x)
           | |- context [repeatMode ?x] => destruct (repeatMode x)
           end;
    simpl; lia.
Qed.

Lemma errors_step (e : Event) (s : Player) :
  event_ok e -> index_ok s ->
  error_toasts (handle e s) = (error_toasts s + failure_count e s)%nat.
Proof.
  intros He Hi. destruct (quiet_event e) eqn:Eq.
  - assert (Hf : failure_count e s = O) by (destruct e; try reflexivity; discriminate Eq).
    rewrite Hf, Nat.add_0_r.
    apply (steps_invariant false false
             (fun x => error_toasts x = error_toasts s) ) with (s := s).
    + intros x x' Hb Hx. rewrite <- Hx. apply errors_quiet_basic. exact Hb.
    + apply handle_steps; [right; split; assumption | right; exact Eq].
    + reflexivity.
  - destruct e; try discriminate Eq; simpl handle; simpl failure_count.
    + apply error_toasts_emit with
        (l := [ConsoleError "Audio error:"; Toast "Error playing audio file" "error"]).
      unfold handleAudioError, pause, showToast. simpl.
      rewrite <- app_assoc. reflexivity.
    + unfold settle.
      destruct (take_request id (pending s)) as [[|] |]; destruct o;
        try (rewrite Nat.add_0_r; reflexivity).
      * apply error_toasts_emit with
          (l := [ConsoleError "Error playing audio:";
                 Toast "Error playing audio" "error"]).
        simpl. rewrite <- app_assoc. reflexivity.
      * apply error_toasts_emit with (l := [TrackChanged (currentTrack s)]).
        reflexivity.
      * apply error_toasts_emit with
          (l := [ConsoleError "Error playing audio:";
                 Toast "Error playing audio" "error";
                 TrackChanged (currentTrack s)]).
        simpl. rewrite <- !app_assoc. reflexivity.
Qed.

(** X16. Every failure is reported once and nothing else is reported as an
    error.  When the page keeps its side, the number of error toasts shown
    after a run of events is the number shown before plus the number of
    failures in the run, a failure being an error event of the audio element
    or the rejection of a playback request that is pending when it arrives;
    from the constructor on it is the number of failures. *)
Theorem every_failure_one_toast (es : list Event) (s : Player)
    (Hes : Forall event_ok es) (Hi : index_ok s) :
  error_toasts (run es s) = (error_toasts s + failures es s)%nat
  /\ (forall a el,
        error_toasts (run es (constructor a el))
        = failures es (constructor a el)).
Proof.
  assert (Hrun : forall s0, index_ok s0 ->
            error_toasts (run es s0) = (error_toasts s0 + failures es s0)%nat).
  { clear s Hi. induction Hes as [| e es He Hes IH]; intros s0 H0.
    - simpl. lia.
    - change (run (e :: es) s0) with (run es (handle e s0)).
      rewrite IH by (apply index_ok_step; assumption).
      rewrite errors_step by assumption. simpl. lia. }
  split; [apply Hrun; exact Hi |].
  intros a el. rewrite Hrun by (left; reflexivity). reflexivity.
Qed.

Lemma every_failure_one_toast_witness :
  error_toasts
    (run [LoadTrack trackA (Some [trackA; trackB]) 0; PlaySettled 0 Rejected;
          PlaySettled 0 Rejected; AudioError; ClickNext 0;
          PlaySettled 1 Fulfilled] player0)
  = 2%nat.
Proof.
  refine (eq_trans
            (proj1 (every_failure_one_toast
                      [LoadTrack trackA (Some [trackA; trackB]) 0;
                       PlaySettled 0 Rejected; PlaySettled 0 Rejected;
                       AudioError; ClickNext 0; PlaySettled 1 Fulfilled]
                      player0 _ _)) _).
  - repeat constructor; simpl; unfold Qle, Qlt; simpl; lia.
  - left. reflexivity.
  - reflexivity.
Defined.

(** ** Play, pause and back *)

(** X17. From a paused controller, [togglePlayPause()] requests playback and
    the controller counts as playing only once the request is fulfilled; a
    second [togglePlayPause()] then pauses, and the round trip leaves the
    track, the queue, the index, the pending requests and the output as they
    were.  [pause()] twice is [pause()] once, and the handler of the audio
    element's error event leaves the controller paused with its track, queue,
    index and pending requests untouched. *)
Theorem togglePlayPause_round_trip (s : Player)
    (Hn : requests_numbered s)
    (Hp : isPlaying s = false) :
  let s1 := togglePlayPause s in
  let s2 := settle (nextRequest s) Fulfilled s1 in
  let s3 := togglePlayPause s2 in
  isPlaying s1 = false
  /\ pending s1 = pending s ++ [(nextRequest s, PlayOnly)]
  /\ isPlaying s2 = true
  /\ Elements.playPauseTitle (elements s2) = "Pause"%string
  /\ isPlaying s3 = false
  /\ Elements.playPauseTitle (elements s3) = "Play"%string
  /\ pending s3 = pending s
  /\ currentTrack s3 = currentTrack s
  /\ queue s3 = queue s
  /\ currentIndex s3 = currentIndex s
  /\ output s3 = output s
  /\ (forall s0, pause (pause s0) = pause s0)
  /\ (forall s0,
        isPlaying (handleAudioError s0) = false
        /\ currentTrack (handleAudioError s0) = currentTrack s0
        /\ queue (handleAudioError s0) = queue s0
        /\ currentIndex (handleAudioError s0) = currentIndex s0
        /\ pending (handleAudioError s0) = pending s0).
Proof.
  cbv zeta.
  assert (E1 : togglePlayPause s = play s)
    by (unfold togglePlayPause; rewrite Hp; reflexivity).
  rewrite E1.
  assert (E2 : settle (nextRequest s) Fulfilled (play s)
               = updatePlayPauseButton
                   (set_isPlaying true
                      (set_pending (pending s)
                         (set_nextRequest (S (nextRequest s)) s)))).
  { unfold settle, play, play_request. simpl pending.
    rewrite take_request_fresh, drop_request_fresh by exact Hn.
    reflexivity. }
  rewrite E2.
  split; [exact Hp |]. split; [reflexivity |].
  repeat split.
Qed.

Lemma togglePlayPause_round_trip_witness :
  isPlaying
    (togglePlayPause
       (settle (nextRequest player0) Fulfilled (togglePlayPause player0)))
  = false.
Proof.
  refine (proj1 (proj2 (proj2 (proj2 (proj2
            (togglePlayPause_round_trip player0 _ _)))))).
  - intros r Hr. destruct Hr.
  - reflexivity.
Defined.

(** ** Next and previous undo each other *)

Lemma playNext_position (rnd : Q) (s : Player) :
  0 <= currentIndex s < queue_length s -> isShuffled s = false ->
  Audio.currentTime (audio (playNext rnd s)) = Num 0.
Proof.
  intros Hi Hs. unfold playNext.
  destruct (queue_length s =? 0) eqn:E; [apply Z.eqb_eq in E; lia |].
  rewrite Hs.
  set (j := Z.rem (currentIndex s + 1) (queue_length s)).
  assert (Hj : 0 <= j < queue_length s)
    by (unfold j; rewrite Z.rem_mod_nonneg by lia; apply Z.mod_pos_bound; lia).
  destruct (loadCurrent_in_range (set_currentIndex j s) Hj)
    as (track & _ & ->).
  reflexivity.
Qed.

Lemma playPrevious_back (s : Player) :
  0 <= currentIndex s < queue_length s ->
  gt (Audio.currentTime (audio s)) (Num 3) = false ->
  let j := (currentIndex s - 1 + queue_length s) mod queue_length s in
  currentIndex (playPrevious s) = j
  /\ queue (playPrevious s) = queue s
  /\ currentTrack (playPrevious s) = queue_at (queue s) j
  /\ isShuffled (playPrevious s) = isShuffled s
  /\ 0 <= j < queue_length s.
Proof.
  intros Hi Ht. cbv zeta. unfold playPrevious.
  destruct (queue_length s =? 0) eqn:E; [apply Z.eqb_eq in E; lia |].
  rewrite Ht, Z.rem_mod_nonneg by lia.
  set (j := (currentIndex s - 1 + queue_length s) mod queue_length s).
  destruct (loadCurrent_fields (set_currentIndex j s))
    as (L1 & L2 & L3 & L4 & _).
  rewrite L1, L2, L3, L4. repeat split; try (apply Z.mod_pos_bound; lia).
Qed.

Lemma playPrevious_restart (s : Player) :
  queue s <> [] ->
  gt (Audio.currentTime (audio s)) (Num 3) = true ->
  playPrevious s = set_audio (Audio.set_currentTime (Num 0) (audio s)) s.
Proof.
  intros Hq Ht. unfold playPrevious.
  rewrite (proj2 (queue_length_pos s) Hq), Ht. reflexivity.
Qed.

Lemma next_back_index (i n : Z) :
  0 <= i < n -> ((i + 1) mod n - 1 + n) mod n = i.
Proof.
  intros H. destruct (Z.eq_dec (i + 1) n) as [E | E].
  - rewrite E, Z.mod_same by lia.
    replace (0 - 1 + n) with i by lia. apply Z.mod_small. lia.
  - rewrite (Z.mod_small (i + 1)) by lia.
    replace (i + 1 - 1 + n) with (i + 1 * n) by lia.
    rewrite Z.mod_add by lia. apply Z.mod_small. lia.
Qed.

Lemma back_next_index (i n : Z) :
  0 <= i < n -> ((i - 1 + n) mod n + 1) mod n = i.
Proof.
  intros H. destruct (Z.eq_dec i 0) as [E | E].
  - subst i. replace (0 - 1 + n) with (n - 1) by lia.
    rewrite (Z.mod_small (n - 1)) by lia.
    replace (n - 1 + 1) with n by lia. apply Z.mod_same. lia.
  - replace (i - 1 + n) with (i - 1 + 1 * n) by lia.
    rewrite Z.mod_add by lia. rewrite (Z.mod_small (i - 1)) by lia.
    replace (i - 1 + 1) with i by lia. apply Z.mod_small. lia.
Qed.

(** X18. With shuffle off and the index inside the queue, the next and the
    previous buttons undo each other: previous right after next comes back
    to the same index and track (the position is 0 after a load, so previous
    does not restart), and next after a previous pressed within the first 3
    seconds does too.  Pressed after more than 3 seconds, previous restarts
    the track and a second press goes back one entry. *)
Theorem next_and_previous_undo (rnd : Q) (s : Player) (t : Q)
    (Hi : 0 <= currentIndex s < queue_length s)
    (Hs : isShuffled s = false)
    (Ht : Audio.currentTime (audio s) = Num t) :
  (currentIndex (playPrevious (playNext rnd s)) = currentIndex s
   /\ queue (playPrevious (playNext rnd s)) = queue s
   /\ currentTrack (playPrevious (playNext rnd s))
      = queue_at (queue s) (currentIndex s))
  /\ ((t <= 3)%Q ->
      currentIndex (playNext rnd (playPrevious s)) = currentIndex s
      /\ queue (playNext rnd (playPrevious s)) = queue s
      /\ currentTrack (playNext rnd (playPrevious s))
         = queue_at (queue s) (currentIndex s))
  /\ ((3 < t)%Q ->
      currentIndex (playPrevious s) = currentIndex s
      /\ Audio.currentTime (audio (playPrevious s)) = Num 0
      /\ currentIndex (playPrevious (playPrevious s))
         = (currentIndex s - 1 + queue_length s) mod queue_length s).
Proof.
  assert (Hq : queue s <> [])
    by (unfold queue_length in Hi; destruct (queue s); simpl in *;
        [lia | discriminate]).
  split; [| split].
  - destruct (playNext_sequential rnd s Hi Hs) as (P1 & P2 & P3 & _).
    pose proof (playNext_position rnd s Hi Hs) as P5.
    assert (Hlen : queue_length (playNext rnd s) = queue_length s)
      by (unfold queue_length; rewrite P2; reflexivity).
    assert (Hi' : 0 <= currentIndex (playNext rnd s)
                  < queue_length (playNext rnd s))
      by (rewrite Hlen, P1; apply Z.mod_pos_bound; lia).
    assert (Hg : gt (Audio.currentTime (audio (playNext rnd s))) (Num 3)
                 = false) by (rewrite P5; reflexivity).
    destruct (playPrevious_back (playNext rnd s) Hi' Hg)
      as (B1 & B2 & B3 & _).
    rewrite B1, B2, B3, P1, P2, Hlen, next_back_index by exact Hi. auto.
  - intros Hle.
    assert (Hg : gt (Audio.currentTime (audio s)) (Num 3) = false).
    { rewrite Ht. unfold gt, Qltb. apply Qle_bool_iff in Hle.
      rewrite Hle. reflexivity. }
    destruct (playPrevious_back s Hi Hg) as (B1 & B2 & B3 & B4 & B5).
    assert (Hlen : queue_length (playPrevious s) = queue_length s)
      by (unfold queue_length; rewrite B2; reflexivity).
    assert (Hi' : 0 <= currentIndex (playPrevious s)
                  < queue_length (playPrevious s))
      by (rewrite Hlen, B1; exact B5).
    assert (Hs' : isShuffled (playPrevious s) = false) by congruence.
    destruct (playNext_sequential rnd (playPrevious s) Hi' Hs')
      as (P1 & P2 & _ & P4).
    rewrite P1, P2, P4, B1, B2, Hlen, back_next_index by exact Hi. auto.
  - intros Hgt.
    assert (Hg : gt (Audio.currentTime (audio s)) (Num 3) = true).
    { rewrite Ht. unfold gt, Qltb.
      destruct (Qle_bool t 3) eqn:E; [| reflexivity].
      apply Qle_bool_iff in E. exfalso. lra. }
    rewrite (playPrevious_restart s Hq Hg).
    split; [reflexivity |]. split; [reflexivity |].
    apply (playPrevious_back
             (set_audio (Audio.set_currentTime (Num 0) (audio s)) s)).
    + exact Hi.
    + reflexivity.
Qed.

Lemma next_and_previous_undo_witness :
  currentIndex
    (playPrevious
       (playNext 0 (loadTrack trackC (Some [trackA; trackB; trackC]) 2 player0)))
  = 2.
Proof.
  refine (proj1 (proj1 (next_and_previous_undo 0
                          (loadTrack trackC (Some [trackA; trackB; trackC]) 2
                             player0) 0 _ _ _))).
  - unfold queue_length. simpl. lia.
  - reflexivity.
  - reflexivity.
Defined.
